(** * The CSS colour resolver of kumo-figma ([scripts/color-utils.ts])

    A shallow embedding of [resolveColor] and its helpers
    [extractCssVarFallback], [convertOklchToFigma] and [convertHexToFigma],
    followed by the properties the specification states about them.

    - A JavaScript string is the list of its UTF-16 code units.
    - A JavaScript number is an IEEE 754 binary64 value ([spec_float] at
      precision 53), with the operations the source uses written out.
    - A thrown [Error] is a result value that records which [throw] of the
      source was reached and the string that its message names.
    - culori's [rgb] converter is a dependency that is not part of the
      repository: it is a parameter of the development. *)

From Stdlib Require Import Ascii String.
From Stdlib Require Import List Arith ZArith NArith Lia Bool.
From Stdlib Require Import Floats.SpecFloat.
From Equations Require Import Equations.
From Equations.Prop Require Import Logic.
Import ListNotations.

(* ===================================================================== *)
(** * Strings *)
(* ===================================================================== *)

Module Str.

(** A code unit and a string of code units. *)
Definition char := N.
Definition str := list char.

(** The code unit of an ASCII character, and the string of a literal. *)
Definition ch (a : ascii) : char := N_of_ascii a.
Arguments ch a%_char : simpl never.

Fixpoint js (s : String.string) : str :=
  match s with
  | String.EmptyString => []
  | String.String a rest => ch a :: js rest
  end.
Arguments js s%_string.

Definition ch_eqb (a b : char) : bool := N.eqb a b.

Fixpoint str_eqb (s t : str) : bool :=
  match s, t with
  | [], [] => true
  | a :: s', b :: t' => ch_eqb a b && str_eqb s' t'
  | _, _ => false
  end.

(** [WhiteSpace] and [LineTerminator] of ECMAScript: what [trim],
    [trimEnd] and the pattern class [\s] all recognise. *)
Definition is_ws (c : char) : bool :=
  ((9 <=? c) && (c <=? 13) || (c =? 32) || (c =? 160) || (c =? 5760)
   || (8192 <=? c) && (c <=? 8202) || (c =? 8232) || (c =? 8233)
   || (c =? 8239) || (c =? 8287) || (c =? 12288) || (c =? 65279))%N.

Definition is_digit (c : char) : bool := ((48 <=? c) && (c <=? 57))%N.

(** The class [[0-9a-f]] under the [i] flag. *)
Definition is_hex (c : char) : bool :=
  (is_digit c || (97 <=? c) && (c <=? 102) || (65 <=? c) && (c <=? 70))%N.

(** The class [[0-9.]]. *)
Definition is_numch (c : char) : bool := is_digit c || ch_eqb c (ch ".").

(** Longest prefix whose characters satisfy [p], and what follows it. *)
Fixpoint span (p : char -> bool) (s : str) : str * str :=
  match s with
  | [] => ([], [])
  | c :: rest =>
      if p c then let (a, b) := span p rest in (c :: a, b) else ([], s)
  end.

Fixpoint dropWhile (p : char -> bool) (s : str) : str :=
  match s with
  | [] => []
  | c :: rest => if p c then dropWhile p rest else s
  end.

(** [String.prototype.trimStart], [trimEnd] and [trim]. *)
Definition trimStart (s : str) : str := dropWhile is_ws s.
Definition trimEnd (s : str) : str := rev (dropWhile is_ws (rev s)).
Definition trim (s : str) : str := trimEnd (trimStart s).

(** [s.startsWith(p)]; [strip_prefix] also returns what follows [p]. *)
Fixpoint strip_prefix (p s : str) : option str :=
  match p, s with
  | [], _ => Some s
  | a :: p', b :: s' => if ch_eqb a b then strip_prefix p' s' else None
  | _ :: _, [] => None
  end.

Definition startsWith (s p : str) : bool :=
  match strip_prefix p s with Some _ => true | None => false end.

Definition endsWith (s p : str) : bool := startsWith (rev s) (rev p).

(** [s.slice(i, j)] and [s.substring(i, j)] for indices [0 <= i] and
    [0 <= j]; both give the empty string when [j <= i] or [i] is past the
    end (the source never passes a negative index, and never [j < i] to
    [substring]). *)
Definition slice (i j : nat) (s : str) : str := firstn (j - i) (skipn i s).
Definition substring (i j : nat) (s : str) : str := slice i j s.

Definition count_ch (c : char) (s : str) : nat :=
  length (filter (ch_eqb c) s).

End Str.
Import Str.

(* ===================================================================== *)
(** * Numbers *)
(* ===================================================================== *)

Module Num.

(** IEEE 754 binary64. *)
Definition prec : Z := 53.
Definition emax : Z := 1024.
Definition number := spec_float.

Definition nan : number := S754_nan.
Definition pos_zero : number := S754_zero false.
Definition neg_zero : number := S754_zero true.
Definition pos_inf : number := S754_infinity false.
Definition neg_inf : number := S754_infinity true.

(** The number nearest to an integer (ties to even). *)
Definition of_Z (n : Z) : number := binary_normalize prec emax n 0 false.

(** The number nearest to the rational [(-1)^neg * num / den]. *)
Definition of_ratio (neg : bool) (num den : positive) : number :=
  SFdiv prec emax (S754_finite neg num 0) (S754_finite false den 0).

Definition div (x y : number) : number := SFdiv prec emax x y.

Definition one : number := Eval vm_compute in of_Z 1.
Definition n100 : number := Eval vm_compute in of_Z 100.
Definition n255 : number := Eval vm_compute in of_Z 255.

Definition is_nan (x : number) : bool :=
  match x with S754_nan => true | _ => false end.
Definition ltb (x y : number) : bool := SFltb x y.
Definition leb (x y : number) : bool := SFleb x y.

(** Membership in the closed unit interval; false for NaN. *)
Definition in_unit (x : number) : bool := leb pos_zero x && leb x one.

Definition is_pos_zero (x : number) : bool :=
  match x with S754_zero false => true | _ => false end.
Definition is_neg_zero (x : number) : bool :=
  match x with S754_zero true => true | _ => false end.

(** [Math.min(...)] and [Math.max(...)], as ECMAScript defines them: NaN
    as soon as an argument is NaN, and -0 below +0. *)
Fixpoint min_loop (lowest : number) (xs : list number) : number :=
  match xs with
  | [] => lowest
  | x :: rest =>
      if is_nan x then nan
      else
        let lowest1 :=
          if is_neg_zero x && is_pos_zero lowest then neg_zero else lowest in
        min_loop (if ltb x lowest1 then x else lowest1) rest
  end.

Fixpoint max_loop (highest : number) (xs : list number) : number :=
  match xs with
  | [] => highest
  | x :: rest =>
      if is_nan x then nan
      else
        let highest1 :=
          if is_pos_zero x && is_neg_zero highest then pos_zero else highest in
        max_loop (if ltb highest1 x then x else highest1) rest
  end.

Definition Math_min (a b : number) : number := min_loop pos_inf [a; b].
Definition Math_max (a b : number) : number := max_loop neg_inf [a; b].

(** Value of a decimal or hexadecimal digit character. *)
Definition digit_val (c : char) : Z := (Z.of_N c - 48)%Z.

Definition hex_val (c : char) : Z :=
  (if is_digit c then Z.of_N c - 48
   else if (97 <=? c)%N then Z.of_N c - 87
   else Z.of_N c - 55)%Z.

Definition digits_val (base : Z) (value : char -> Z) (ds : str) : Z :=
  fold_left (fun acc c => (base * acc + value c)%Z) ds 0%Z.

Definition take_sign (s : str) : bool * str :=
  match s with
  | c :: rest =>
      if ch_eqb c (ch "-") then (true, rest)
      else if ch_eqb c (ch "+") then (false, rest)
      else (false, s)
  | [] => (false, s)
  end.

(** The [ExponentPart] of a decimal literal, when one is there: its value
    and nothing else is needed, since [parseFloat] ignores what follows. *)
Definition exponent_part (s : str) : Z :=
  match s with
  | c :: rest =>
      if ch_eqb c (ch "e") || ch_eqb c (ch "E") then
        let (neg, t) := take_sign rest in
        let (ds, _) := span is_digit t in
        match ds with
        | [] => 0%Z
        | _ =>
            let e := digits_val 10 digit_val ds in
            if neg then (- e)%Z else e
        end
      else 0%Z
  | [] => 0%Z
  end.

(** The number value of [mant * 10^e10]. *)
Definition of_decimal (neg : bool) (mant e10 : Z) : number :=
  match mant with
  | Zpos m =>
      match e10 with
      | Z0 => of_ratio neg m 1
      | Zpos e => of_ratio neg (m * 10 ^ e)%positive 1
      | Zneg e => of_ratio neg m (10 ^ e)%positive
      end
  | _ => S754_zero neg
  end.

(** [parseFloat(s)]: leading white space is skipped, the longest prefix
    that is a [StrDecimalLiteral] is read, and NaN is the answer when
    there is none. *)
Definition parseFloat (s : str) : number :=
  let (neg, t) := take_sign (trimStart s) in
  if startsWith t (js "Infinity") then S754_infinity neg
  else
    let (ip, t1) := span is_digit t in
    let (fp, t2) :=
      match t1 with
      | c :: u => if ch_eqb c (ch ".") then span is_digit u else ([], t1)
      | [] => ([], t1)
      end in
    match ip ++ fp with
    | [] => nan
    | ds =>
        of_decimal neg (digits_val 10 digit_val ds)
                   (exponent_part t2 - Z.of_nat (length fp))%Z
    end.

(** [parseInt(s, 16)]: white space and sign are skipped, then an optional
    [0x], and the longest run of hexadecimal digits is read. *)
Definition parseInt16 (s : str) : number :=
  let (neg, t) := take_sign (trimStart s) in
  let t1 :=
    match t with
    | z :: x :: u =>
        if ch_eqb z (ch "0") && (ch_eqb x (ch "x") || ch_eqb x (ch "X"))
        then u else t
    | _ => t
    end in
  let (ds, _) := span is_hex t1 in
  match ds with
  | [] => nan
  | _ =>
      let n := digits_val 16 hex_val ds in
      match n with
      | Z0 => S754_zero neg
      | _ => of_Z (if neg then (- n)%Z else n)
      end
  end.

End Num.
Import Num.

(* ===================================================================== *)
(** * The program *)
(* ===================================================================== *)

(** [type FigmaColor = { r: number; g: number; b: number; a?: number }] *)
Module FigmaColor.
Record t := mk { r : number; g : number; b : number; a : option number }.
End FigmaColor.

(** culori's [Oklch] colour as the source builds it ([mode] is the
    constant ["oklch"]), and the [Rgb] colour it reads back. *)
Module Oklch.
Record t := mk { l : number; c : number; h : number }.
End Oklch.

Module Rgb.
Record t := mk { r : number; g : number; b : number }.
End Rgb.

(** The five [throw] statements of the source, each with the string its
    message names:
    - [InvalidExpression]: [Cannot resolve CSS variable without fallback: ${value}]
    - [InvalidOklch]: [Invalid OKLCH format: ${oklchString}]
    - [ConversionFailed]: [Failed to convert OKLCH to RGB: ${oklchString}]
    - [InvalidHex]: [Invalid hex color: ${hex}]
    - [UnsupportedFormat]: [Unsupported color format: ${value}] *)
Inductive error :=
| InvalidExpression (value : str)
| InvalidOklch (oklchString : str)
| ConversionFailed (oklchString : str)
| InvalidHex (hex : str)
| UnsupportedFormat (value : str).

Inductive result :=
| Ok (color : FigmaColor.t)
| Throw (e : error).

(** ** [extractCssVarFallback] *)

(** The [for] loop: [depth] is the running counter, [i] the index of the
    head of [s] in [end]; the answer is [commaIndex], [None] for [-1]. *)
Fixpoint find_comma (depth : Z) (i : nat) (s : str) : option nat :=
  match s with
  | [] => None
  | c :: rest =>
      if ch_eqb c (ch "(") then find_comma (depth + 1) (S i) rest
      else if ch_eqb c (ch ")") then find_comma (depth - 1) (S i) rest
      else if ch_eqb c (ch ",") && (depth =? 1)%Z then Some i
      else find_comma depth (S i) rest
  end.

Definition extractCssVarFallback (value : str) : option str :=
  let s := trim value in
  if negb (startsWith s (js "var(")) then None
  else
    let end_ := trimEnd s in
    if negb (endsWith end_ (js ")")) then None
    else
      match find_comma 0 0 end_ with
      | None => None
      | Some commaIndex =>
          let closeIndex := length end_ - 1 in
          Some (trim (slice (commaIndex + 1) closeIndex end_))
      end.

(** ** [convertOklchToFigma] *)

(** The capture groups of
    [/oklch\(\s*([0-9.]+%?)\s+([0-9.]+)\s+([0-9.]+)\s*(?:\/\s*([0-9.]+))?\s*\)/]. *)
Record oklch_groups := mk_groups {
  lightnessStr : str;
  chromaStr : str;
  hueStr : str;
  alphaStr : option str
}.

(** One attempt of the pattern at the head of [s]. The classes [\s],
    [[0-9.]], [%], [/] and [)] are pairwise disjoint and every quantified
    class is followed by a different one, so giving back characters of a
    greedy run never helps: taking each run whole is what the backtracking
    matcher finds, and it fails when this fails. *)
Definition oklch_match_at (s : str) : option oklch_groups :=
  match strip_prefix (js "oklch(") s with
  | None => None
  | Some s0 =>
      let (ldigits, s1) := span is_numch (dropWhile is_ws s0) in
      let (lstr, s2) :=
        match s1 with
        | c :: u => if ch_eqb c (ch "%") then (ldigits ++ [c], u)
                    else (ldigits, s1)
        | [] => (ldigits, s1)
        end in
      let (ws1, s3) := span is_ws s2 in
      let (cstr, s4) := span is_numch s3 in
      let (ws2, s5) := span is_ws s4 in
      let (hstr, s6) := span is_numch s5 in
      let s7 := dropWhile is_ws s6 in
      let (astr, s8) :=
        match s7 with
        | c :: u =>
            if ch_eqb c (ch "/") then
              let (a, v) := span is_numch (dropWhile is_ws u) in (Some a, v)
            else (None, s7)
        | [] => (None, s7)
        end in
      match ldigits, ws1, cstr, ws2, hstr, astr, dropWhile is_ws s8 with
      | _ :: _, _ :: _, _ :: _, _ :: _, _ :: _, Some [], _ => None
      | _ :: _, _ :: _, _ :: _, _ :: _, _ :: _, _, c :: _ =>
          if ch_eqb c (ch ")") then Some (mk_groups lstr cstr hstr astr)
          else None
      | _, _, _, _, _, _, _ => None
      end
  end.

(** [String.prototype.match] with a pattern that has no [g] or [y] flag:
    the first index at which the pattern matches. *)
Fixpoint oklch_exec (s : str) : option oklch_groups :=
  match oklch_match_at s with
  | Some m => Some m
  | None =>
      match s with
      | [] => None
      | _ :: rest => oklch_exec rest
      end
  end.

Definition includes (s : str) (c : char) : bool := existsb (ch_eqb c) s.

(** ** [convertHexToFigma] *)

(** [hex.replace(/^#([0-9a-f])([0-9a-f])([0-9a-f])$/i, "#$1$1$2$2$3$3")] *)
Definition expand_shorthand (hex : str) : str :=
  match hex with
  | [p; x; y; z] =>
      if ch_eqb p (ch "#") && is_hex x && is_hex y && is_hex z
      then [p; x; x; y; y; z; z]
      else hex
  | _ => hex
  end.

(** [normalized.match(/^#([0-9a-f]{6})$/i)]: the captured group. *)
Definition hex6_match (normalized : str) : option str :=
  match normalized with
  | p :: body =>
      if ch_eqb p (ch "#") && (length body =? 6) && forallb is_hex body
      then Some body
      else None
  | [] => None
  end.

Definition convertHexToFigma (hex : str) : result :=
  let normalized := expand_shorthand hex in
  match hex6_match normalized with
  | None => Throw (InvalidHex hex)
  | Some hexValue =>
      let r := div (parseInt16 (substring 0 2 hexValue)) n255 in
      let g := div (parseInt16 (substring 2 4 hexValue)) n255 in
      let b := div (parseInt16 (substring 4 6 hexValue)) n255 in
      Ok (FigmaColor.mk r g b None)
  end.


(** ** Lengths: what [resolveColor] recurses on *)

Lemma dropWhile_length (p : char -> bool) (s : str) :
  length (dropWhile p s) <= length s.
Proof.
  induction s as [|c s IH]; simpl; [lia|].
  destruct (p c); simpl; lia.
Qed.

Lemma trimEnd_length (s : str) : length (trimEnd s) <= length s.
Proof.
  unfold trimEnd. rewrite length_rev.
  etransitivity; [apply dropWhile_length|]. rewrite length_rev. lia.
Qed.

Lemma trim_length (s : str) : length (trim s) <= length s.
Proof.
  unfold trim, trimStart.
  etransitivity; [apply trimEnd_length|]. apply dropWhile_length.
Qed.

Lemma slice_length (i j : nat) (s : str) :
  length (slice i j s) <= length s - i.
Proof.
  unfold slice. rewrite length_firstn, length_skipn. lia.
Qed.

Lemma find_comma_bounds (s : str) :
  forall depth i k, find_comma depth i s = Some k -> i <= k < i + length s.
Proof.
  induction s as [|c s IH]; simpl; intros depth i k H; [discriminate|].
  destruct (ch_eqb c _); [apply IH in H; lia|].
  destruct (ch_eqb c _); [apply IH in H; lia|].
  destruct (ch_eqb c _ && (depth =? 1)%Z).
  - inversion H; subst. lia.
  - apply IH in H; lia.
Qed.

(** The fallback is strictly shorter than the string it is taken from. *)
Lemma extractCssVarFallback_shorter (value fallback : str) :
  extractCssVarFallback value = Some fallback ->
  length fallback < length value.
Proof.
  unfold extractCssVarFallback.
  destruct (negb (startsWith (trim value) (js "var("))); [discriminate|].
  destruct (negb (endsWith (trimEnd (trim value)) (js ")"))); [discriminate|].
  destruct (find_comma 0 0 (trimEnd (trim value))) as [k|] eqn:Hk;
    [|discriminate].
  intros H. inversion H; subst. clear H.
  apply find_comma_bounds in Hk.
  pose proof (trim_length (slice (k + 1) (length (trimEnd (trim value)) - 1)
                                 (trimEnd (trim value)))) as H1.
  pose proof (slice_length (k + 1) (length (trimEnd (trim value)) - 1)
                           (trimEnd (trim value))) as H2.
  pose proof (trimEnd_length (trim value)) as H3.
  pose proof (trim_length value) as H4.
  lia.
Qed.

Section Resolver.

(** culori's [rgb]: [undefined] is [None]. *)
Variable rgb : Oklch.t -> option Rgb.t.

Definition convertOklchToFigma (oklchString : str) : result :=
  match oklch_exec oklchString with
  | None => Throw (InvalidOklch oklchString)
  | Some m =>
      let lightness := parseFloat (lightnessStr m) in
      let lightness :=
        if includes (lightnessStr m) (ch "%") then div lightness n100
        else lightness in
      let chroma := parseFloat (chromaStr m) in
      let hue := parseFloat (hueStr m) in
      let alpha :=
        match alphaStr m with
        | Some ((_ :: _) as a) => Some (parseFloat a)
        | _ => None
        end in
      match rgb (Oklch.mk lightness chroma hue) with
      | None => Throw (ConversionFailed oklchString)
      | Some rgbColor =>
          Ok (FigmaColor.mk
                (Math_max pos_zero (Math_min one (Rgb.r rgbColor)))
                (Math_max pos_zero (Math_min one (Rgb.g rgbColor)))
                (Math_max pos_zero (Math_min one (Rgb.b rgbColor)))
                alpha)
      end
  end.

(** ** [resolveColor] *)

Definition transparent : FigmaColor.t :=
  FigmaColor.mk pos_zero pos_zero pos_zero (Some pos_zero).

(** The recursion is on the fallback of a [var(...)], a shorter string.
    [!fallback] holds for [null] and for the empty string. *)
Equations? resolveColor (value : str) : result by wf (length value) lt :=
  resolveColor value with str_eqb (trim value) (js "transparent") => {
    | true := Ok transparent;
    | false with startsWith (trim value) (js "var(") => {
      | true with inspect (extractCssVarFallback (trim value)) => {
        | exist _ (Some (c :: f)) Hfallback := resolveColor (c :: f);
        | exist _ _ _ := Throw (InvalidExpression value) };
      | false with startsWith (trim value) (js "oklch(") => {
        | true := convertOklchToFigma (trim value);
        | false with startsWith (trim value) (js "#") => {
          | true := convertHexToFigma (trim value);
          | false := Throw (UnsupportedFormat value) } } } }.
Proof.
  apply extractCssVarFallback_shorter in Hfallback.
  pose proof (trim_length value). simpl in *. lia.
Qed.

End Resolver.

(* ===================================================================== *)
(** * The specification's vocabulary *)
(* ===================================================================== *)

(** The base-16 value of a digit, by its rank in [0123456789abcdef],
    letters in either case. *)
Definition to_lower (c : char) : char :=
  if ((65 <=? c) && (c <=? 90))%N then (c + 32)%N else c.

Fixpoint index_of (c : char) (s : str) : option nat :=
  match s with
  | [] => None
  | d :: rest =>
      if ch_eqb c d then Some 0
      else match index_of c rest with Some i => Some (S i) | None => None end
  end.

Definition hex_digit_value (c : char) : Z :=
  match index_of (to_lower c) (js "0123456789abcdef") with
  | Some i => Z.of_nat i
  | None => 0
  end.

(** The kind of an error, without the string it names. *)
Inductive error_kind :=
| KInvalidExpression | KInvalidOklch | KConversionFailed
| KInvalidHex | KUnsupportedFormat.

Definition kind_of (e : error) : error_kind :=
  match e with
  | InvalidExpression _ => KInvalidExpression
  | InvalidOklch _ => KInvalidOklch
  | ConversionFailed _ => KConversionFailed
  | InvalidHex _ => KInvalidHex
  | UnsupportedFormat _ => KUnsupportedFormat
  end.

(** The same colour, or a failure of the same kind. *)
Definition same_outcome (r1 r2 : result) : Prop :=
  match r1, r2 with
  | Ok c1, Ok c2 => c1 = c2
  | Throw e1, Throw e2 => kind_of e1 = kind_of e2
  | _, _ => False
  end.

(** Parenthesis depth: what a character adds to it, the depth after a
    whole string, and the deepest point reached while reading a string
    from depth [d]. *)
Definition paren_delta (c : char) : Z :=
  if ch_eqb c (ch "(") then 1 else if ch_eqb c (ch ")") then (-1) else 0.

Fixpoint paren_depth (s : str) : Z :=
  match s with
  | [] => 0
  | c :: rest => paren_delta c + paren_depth rest
  end.

Fixpoint max_depth (d : Z) (s : str) : Z :=
  match s with
  | [] => d
  | c :: rest => Z.max d (max_depth (d + paren_delta c) rest)
  end.

(** The textual nesting of a string: its deepest parenthesis level. *)
Definition nesting (s : str) : nat := Z.to_nat (max_depth 0 s).

(** Parentheses are balanced: every [)] closes an open [(], and none is
    left open. *)
Fixpoint balanced_from (opened : nat) (s : str) : bool :=
  match s with
  | [] => opened =? 0
  | c :: rest =>
      if ch_eqb c (ch "(") then balanced_from (S opened) rest
      else if ch_eqb c (ch ")") then
        match opened with
        | 0 => false
        | S n => balanced_from n rest
        end
      else balanced_from opened rest
  end.

Definition balanced (s : str) : bool := balanced_from 0 s.

(** Index [i] of [s] holds a comma at parenthesis depth 1, and it is the
    first such index. *)
Definition depth1_comma (s : str) (i : nat) : Prop :=
  nth_error s i = Some (ch ",") /\ paren_depth (firstn i s) = 1%Z.

Definition first_depth1_comma (s : str) (i : nat) : Prop :=
  depth1_comma s i /\ forall j, j < i -> ~ depth1_comma s j.

(** A variable name holds no comma and no parenthesis. *)
Definition name_char (c : char) : bool :=
  negb (ch_eqb c (ch ",") || ch_eqb c (ch "(") || ch_eqb c (ch ")")).

(** The text [var(--name, e)]. *)
Definition var_expr (name e : str) : str :=
  js "var(--" ++ name ++ js ", " ++ e ++ js ")".

(** [resolveColor] with its call depth bounded: [None] when more than
    [fuel] nested calls would be needed. *)
Fixpoint resolveColor_fuel (rgb : Oklch.t -> option Rgb.t)
    (fuel : nat) (value : str) : option result :=
  match fuel with
  | 0 => None
  | S fuel' =>
      let trimmed := trim value in
      if str_eqb trimmed (js "transparent") then Some (Ok transparent)
      else if startsWith trimmed (js "var(") then
        match extractCssVarFallback trimmed with
        | Some (c :: f) => resolveColor_fuel rgb fuel' (c :: f)
        | _ => Some (Throw (InvalidExpression value))
        end
      else if startsWith trimmed (js "oklch(") then
        Some (convertOklchToFigma rgb trimmed)
      else if startsWith trimmed (js "#") then
        Some (convertHexToFigma trimmed)
      else Some (Throw (UnsupportedFormat value))
  end.

(** The expression that is left once the input is trimmed and every
    [var(...)] is replaced by its fallback. *)
Inductive final_expression : str -> str -> Prop :=
| final_leaf (value : str) :
    startsWith (trim value) (js "var(") = false ->
    final_expression value (trim value)
| final_var (value : str) (c : char) (f leaf : str) :
    startsWith (trim value) (js "var(") = true ->
    extractCssVarFallback (trim value) = Some (c :: f) ->
    final_expression (c :: f) leaf ->
    final_expression value leaf.

(** The alpha token of an OKLCH expression: what stands after the slash
    when the expression has an alpha clause. *)
Definition alpha_token (s : str) : option str :=
  match oklch_exec s with
  | Some m => alphaStr m
  | None => None
  end.

(** A number: digits with at most one point among them. *)
Definition is_number (tok : str) : bool :=
  forallb is_numch tok
  && (1 <=? length (filter is_digit tok))
  && (count_ch (ch ".") tok <=? 1).

Definition nonempty (s : str) : bool :=
  match s with [] => false | _ :: _ => true end.

(** The shape [oklch( L C H [ / A ] )] of the specification, for a whole
    string: [L] a number with or without [%], [C] and [H] numbers, white
    space between them, and [A] a number after a slash when there is
    one. *)
Definition oklch_shape (s : str) : bool :=
  match strip_prefix (js "oklch(") s with
  | None => false
  | Some s0 =>
      let (L, s1) := span is_numch (dropWhile is_ws s0) in
      let s2 :=
        match s1 with
        | c :: u => if ch_eqb c (ch "%") then u else s1
        | [] => s1
        end in
      let (w1, s3) := span is_ws s2 in
      let (C, s4) := span is_numch s3 in
      let (w2, s5) := span is_ws s4 in
      let (H, s6) := span is_numch s5 in
      let s7 := dropWhile is_ws s6 in
      let (alpha_ok, s8) :=
        match s7 with
        | c :: u =>
            if ch_eqb c (ch "/") then
              let (A, v) := span is_numch (dropWhile is_ws u) in
              (is_number A, dropWhile is_ws v)
            else (true, s7)
        | [] => (true, s7)
        end in
      is_number L && nonempty w1 && is_number C && nonempty w2
      && is_number H && alpha_ok && str_eqb s8 (js ")")
  end.

(** A converter to run examples with, where a statement holds of every
    converter: the grey that has the lightness as its three channels. *)
Definition grey (o : Oklch.t) : option Rgb.t :=
  Some (Rgb.mk (Oklch.l o) (Oklch.l o) (Oklch.l o)).

(** The channel that a two-digit group denotes: its value over 255. *)
Definition hex_channel (x y : char) : number :=
  div (of_Z (16 * hex_digit_value x + hex_digit_value y)) (of_Z 255).

(** C1 as the specification states it: for every balanced [e], whatever
    it holds. *)
Definition C1_as_stated : Prop :=
  forall (rgb : Oklch.t -> option Rgb.t) (name e : str),
    forallb name_char name = true ->
    balanced e = true ->
    resolveColor rgb (var_expr name e) = resolveColor rgb e.

(** C3 as the specification states it. *)
Definition C3_as_stated : Prop :=
  forall (rgb : Oklch.t -> option Rgb.t) (value : str)
         (color : FigmaColor.t) (x : number),
    resolveColor rgb value = Ok color ->
    FigmaColor.a color = Some x ->
    in_unit x = true.

(** C4 as the specification states it: every string that is not of the
    shape fails with the invalid-OKLCH error. *)
Definition C4_as_stated : Prop :=
  forall (rgb : Oklch.t -> option Rgb.t) (s : str),
    trim s = s ->
    startsWith s (js "oklch(") = true ->
    oklch_shape s = false ->
    resolveColor rgb s = Throw (InvalidOklch s).

(* ===================================================================== *)
(** * Properties *)
(* ===================================================================== *)

(** ** Characters and trimming *)

Ltac bool_to_prop :=
  repeat match goal with
    | H : _ && _ = true |- _ => apply andb_true_iff in H; destruct H
    | H : _ || _ = true |- _ => apply orb_true_iff in H; destruct H
    | H : (_ <=? _)%N = true |- _ => apply N.leb_le in H
    | H : (_ =? _)%N = true |- _ => apply N.eqb_eq in H
    | H : _ && _ = false |- _ => apply andb_false_iff in H; destruct H
    | H : _ || _ = false |- _ => apply orb_false_iff in H; destruct H
    | H : (_ <=? _)%N = false |- _ => apply N.leb_gt in H
    | H : (_ =? _)%N = false |- _ => apply N.eqb_neq in H
    end.

(** Settles a goal [b = false] on characters from bounds in the context. *)
Ltac char_false :=
  match goal with
  | |- ?b = false =>
      let E := fresh in
      destruct b eqn:E; [exfalso|reflexivity];
      unfold is_ws, is_hex, is_numch, is_digit, ch_eqb in *;
      bool_to_prop; unfold ch in *; simpl N_of_ascii in *; subst; lia
  end.

Lemma hex_not_ws (c : char) : is_hex c = true -> is_ws c = false.
Proof. intros H. char_false. Qed.

Lemma numch_not_ws (c : char) : is_numch c = true -> is_ws c = false.
Proof. intros H. char_false. Qed.

Lemma trimEnd_snoc (s : str) (d : char) :
  is_ws d = false -> trimEnd (s ++ [d]) = s ++ [d].
Proof.
  intros H. unfold trimEnd. rewrite rev_app_distr. simpl. rewrite H.
  change (d :: rev s) with (rev [d] ++ rev s).
  rewrite <- rev_app_distr. apply rev_involutive.
Qed.

(** A string that neither starts nor ends with white space is its own
    trim. *)
Lemma trim_ends (c : char) (m : str) (d : char) :
  is_ws c = false -> is_ws d = false ->
  trim (c :: m ++ [d]) = c :: m ++ [d].
Proof.
  intros Hc Hd. unfold trim, trimStart. simpl. rewrite Hc.
  change (c :: m ++ [d]) with ((c :: m) ++ [d]). now apply trimEnd_snoc.
Qed.

Lemma ch_eqb_eq (a b : char) : ch_eqb a b = true <-> a = b.
Proof. apply N.eqb_eq. Qed.

Lemma dropWhile_idem (p : char -> bool) (s : str) :
  dropWhile p (dropWhile p s) = dropWhile p s.
Proof.
  induction s as [|c s IH]; simpl; [reflexivity|].
  destruct (p c) eqn:E; [exact IH|]. simpl. now rewrite E.
Qed.

Lemma dropWhile_skipn (p : char -> bool) (s : str) :
  exists j, dropWhile p s = skipn j s.
Proof.
  induction s as [|c s [j IH]]; [now exists 0|]. simpl.
  destruct (p c); [now exists (S j) | now exists 0].
Qed.

Lemma dropWhile_all (p : char -> bool) (s : str) :
  forallb p s = true -> dropWhile p s = [].
Proof.
  induction s as [|c s IH]; simpl; [reflexivity|].
  intros H. apply andb_true_iff in H as [Hc Hs]. rewrite Hc. now apply IH.
Qed.

Lemma dropWhile_snoc_keep (p : char -> bool) (l : str) (c : char) :
  p c = false -> exists z, dropWhile p (l ++ [c]) = z ++ [c].
Proof.
  intros H. induction l as [|a l IH]; simpl.
  - rewrite H. now exists [].
  - destruct (p a); [exact IH | now exists (a :: l)].
Qed.

(** [trimEnd] keeps a prefix. *)
Lemma trimEnd_firstn (s : str) : exists k, trimEnd s = firstn k s.
Proof.
  unfold trimEnd. destruct (dropWhile_skipn is_ws (rev s)) as [j ->].
  rewrite skipn_rev, rev_involutive. now eexists.
Qed.

Lemma trimEnd_idem (s : str) : trimEnd (trimEnd s) = trimEnd s.
Proof. unfold trimEnd. now rewrite rev_involutive, dropWhile_idem. Qed.

Lemma trimEnd_cons_keep (c : char) (s : str) :
  is_ws c = false -> exists y, trimEnd (c :: s) = c :: y.
Proof.
  intros H. unfold trimEnd. simpl rev.
  destruct (dropWhile_snoc_keep is_ws (rev s) c H) as [z ->].
  rewrite rev_app_distr. simpl. now eexists.
Qed.

Lemma trimStart_head (s : str) :
  match trimStart s with
  | [] => True
  | c :: _ => is_ws c = false
  end.
Proof.
  unfold trimStart. induction s as [|c s IH]; simpl; [exact I|].
  destruct (is_ws c) eqn:E; [exact IH | exact E].
Qed.

Lemma trim_idem (s : str) : trim (trim s) = trim s.
Proof.
  unfold trim. pose proof (trimStart_head s) as H.
  destruct (trimStart s) as [|c x]; [reflexivity|].
  destruct (trimEnd_cons_keep c x H) as [y E].
  rewrite E at 1. unfold trimStart. simpl. rewrite H, <- E.
  apply trimEnd_idem.
Qed.

Lemma trim_all_ws (w : str) : forallb is_ws w = true -> trim w = [].
Proof.
  intros H. unfold trim, trimStart. now rewrite dropWhile_all.
Qed.

(** A trimmed string that does not start with white space is also its
    own [trimEnd]. *)
Lemma trimEnd_of_trimmed (c : char) (s : str) :
  is_ws c = false -> trim (c :: s) = c :: s -> trimEnd (c :: s) = c :: s.
Proof.
  intros Hc H. unfold trim, trimStart in H. simpl in H.
  now rewrite Hc in H.
Qed.

Lemma skipn_app_length (p r : str) : skipn (length p) (p ++ r) = r.
Proof. induction p as [|c p IH]; simpl; [reflexivity | exact IH]. Qed.

Lemma firstn_app_length (p r : str) : firstn (length p) (p ++ r) = p.
Proof. induction p as [|c p IH]; simpl; [reflexivity | now rewrite IH]. Qed.

(** ** The comma scan *)

(** What the loop of [extractCssVarFallback] finds is the first comma at
    depth 1, the depth being counted from [d] over the characters read. *)
Lemma find_comma_some (s : str) :
  forall d i k,
    find_comma d i s = Some k ->
    exists j,
      k = i + j /\ nth_error s j = Some (ch ",") /\
      (d + paren_depth (firstn j s) = 1)%Z /\
      forall j', j' < j ->
        ~ (nth_error s j' = Some (ch ",") /\
           (d + paren_depth (firstn j' s) = 1)%Z).
Proof.
  induction s as [|c s IH]; simpl; intros d i k H; [discriminate|].
  assert (forall d', find_comma d' (S i) s = Some k ->
            (d' = d + paren_delta c)%Z ->
            (ch_eqb c (ch ",") && (d =? 1)%Z = false) ->
            exists j,
              k = i + j /\ nth_error (c :: s) j = Some (ch ",") /\
              (d + paren_depth (firstn j (c :: s)) = 1)%Z /\
              forall j', j' < j ->
                ~ (nth_error (c :: s) j' = Some (ch ",") /\
                   (d + paren_depth (firstn j' (c :: s)) = 1)%Z)) as Step.
  { intros d' Hk Hd' Hno. apply IH in Hk as (j & -> & Hn & Hd & Hmin).
    exists (S j). simpl. repeat split; [lia | exact Hn | lia |].
    intros [|j'] Hlt; simpl.
    - intros [Hc Hd0]. inversion Hc; subst c.
      rewrite Z.add_0_r in Hd0. subst d. discriminate Hno.
    - intros [Hc Hd0]. apply (Hmin j'); [lia|]. split; [exact Hc | lia]. }
  unfold paren_delta in Step.
  destruct (ch_eqb c (ch "(")) eqn:Eo.
  { apply (Step _ H eq_refl). apply ch_eqb_eq in Eo. now subst c. }
  destruct (ch_eqb c (ch ")")) eqn:Ec.
  { apply (Step _ H eq_refl). apply ch_eqb_eq in Ec. now subst c. }
  destruct (ch_eqb c (ch ",") && (d =? 1)%Z) eqn:Em.
  - inversion H; subst k. apply andb_true_iff in Em as [Em Ed].
    apply ch_eqb_eq in Em. apply Z.eqb_eq in Ed. subst c d.
    exists 0. simpl. repeat split; [lia|]. intros j' Hj'. lia.
  - apply (Step _ H); [lia | reflexivity].
Qed.

Lemma find_comma_none (s : str) :
  forall d i,
    find_comma d i s = None ->
    forall j, ~ (nth_error s j = Some (ch ",") /\
                 (d + paren_depth (firstn j s) = 1)%Z).
Proof.
  induction s as [|c s IH]; simpl; intros d i H j [Hn Hd].
  - now destruct j.
  - destruct j as [|j]; simpl in Hn, Hd.
    + inversion Hn; subst c. rewrite Z.add_0_r in Hd. subst d.
      simpl in H. discriminate H.
    + unfold paren_delta in Hd.
      destruct (ch_eqb c (ch "(")) eqn:Eo;
        [apply (IH _ _ H j); split; [exact Hn | lia]|].
      destruct (ch_eqb c (ch ")")) eqn:Ec;
        [apply (IH _ _ H j); split; [exact Hn | lia]|].
      destruct (ch_eqb c (ch ",") && (d =? 1)%Z); [discriminate|].
      apply (IH _ _ H j); split; [exact Hn | lia].
Qed.

(** The loop against the specification's words. *)
Lemma find_comma_first (s : str) (i : nat) :
  find_comma 0 0 s = Some i <-> first_depth1_comma s i.
Proof.
  unfold first_depth1_comma, depth1_comma. split.
  - intros H. apply find_comma_some in H as (j & -> & Hn & Hd & Hmin).
    simpl. repeat split; [exact Hn | lia |].
    intros j' Hlt [Hc Hd']. apply (Hmin j' Hlt). split; [exact Hc | lia].
  - intros [[Hn Hd] Hmin].
    destruct (find_comma 0 0 s) as [k|] eqn:E.
    + apply find_comma_some in E as (j & -> & Hn' & Hd' & Hmin').
      simpl. f_equal.
      destruct (Nat.lt_trichotomy i j) as [Hlt|[Heq|Hgt]]; [|exact (eq_sym Heq)|].
      * exfalso. apply (Hmin' i Hlt). split; [exact Hn | lia].
      * exfalso. apply (Hmin j Hgt). split; [exact Hn' | lia].
    + exfalso. apply (find_comma_none _ _ _ E i). split; [exact Hn | lia].
Qed.

Lemma find_comma_absent (s : str) :
  find_comma 0 0 s = None <-> forall i, ~ depth1_comma s i.
Proof.
  unfold depth1_comma. split.
  - intros H i [Hn Hd]. apply (find_comma_none _ _ _ H i).
    split; [exact Hn | lia].
  - intros H. destruct (find_comma 0 0 s) as [k|] eqn:E; [|reflexivity].
    apply find_comma_some in E as (j & -> & Hn & Hd & _).
    exfalso. apply (H j). split; [exact Hn | lia].
Qed.

(** Characters of a name do not stop the scan or change the depth. *)
Lemma find_comma_name (name rest : str) (d : Z) (i : nat) :
  forallb name_char name = true ->
  find_comma d i (name ++ rest) = find_comma d (i + length name) rest.
Proof.
  revert i. induction name as [|c name IH]; simpl; intros i H.
  - now rewrite Nat.add_0_r.
  - apply andb_true_iff in H as [Hc Hn]. unfold name_char in Hc.
    apply negb_true_iff in Hc.
    apply orb_false_iff in Hc as [Hc Hclose].
    apply orb_false_iff in Hc as [Hcomma Hopen].
    rewrite Hopen, Hclose, Hcomma. simpl.
    rewrite IH by assumption. f_equal. lia.
Qed.

(** ** Hexadecimal digits *)

Lemma hex_cases (c : char) :
  is_hex c = true ->
  In c (js "0123456789abcdefABCDEF").
Proof.
  intros H. unfold is_hex, is_digit in H. bool_to_prop; simpl; unfold ch;
    simpl; lia.
Qed.

(** [parseInt]'s reading of a digit is its rank in the alphabet. *)
Lemma hex_val_spec (c : char) :
  is_hex c = true -> hex_val c = hex_digit_value c.
Proof.
  intros H. apply hex_cases in H. simpl in H.
  repeat (destruct H as [H|H]; [subst c; reflexivity|]). contradiction.
Qed.

Lemma hex_val_bounds (c : char) :
  is_hex c = true -> (0 <= hex_val c <= 15)%Z.
Proof.
  intros H. apply hex_cases in H. simpl in H.
  repeat (destruct H as [H|H]; [subst c; vm_compute; split; discriminate|]).
  contradiction.
Qed.

(** [parseInt(xy, 16)] for two hexadecimal digits. *)
Lemma parseInt16_pair (x y : char) :
  is_hex x = true -> is_hex y = true ->
  parseInt16 [x; y] = of_Z (16 * hex_val x + hex_val y).
Proof.
  intros Hx Hy.
  assert (digits_val 16 hex_val [x; y] = 16 * hex_val x + hex_val y)%Z
    as E by (unfold digits_val; cbn [fold_left]; lia).
  unfold parseInt16, trimStart. cbn [dropWhile].
  rewrite (hex_not_ws _ Hx). unfold take_sign.
  assert (ch_eqb x (ch "-") = false) as -> by char_false.
  assert (ch_eqb x (ch "+") = false) as -> by char_false.
  assert (ch_eqb y (ch "x") = false) as -> by char_false.
  assert (ch_eqb y (ch "X") = false) as -> by char_false.
  rewrite andb_false_r. cbn [span]. rewrite Hx, Hy.
  cbv beta iota zeta. rewrite E.
  destruct (16 * hex_val x + hex_val y)%Z; reflexivity.
Qed.

(** ** [resolveColor], unfolded once *)

(** [resolveColor] as the source writes it. *)
Lemma resolveColor_eq (rgb : Oklch.t -> option Rgb.t) (value : str) :
  resolveColor rgb value =
  let trimmed := trim value in
  if str_eqb trimmed (js "transparent") then Ok transparent
  else if startsWith trimmed (js "var(") then
    match extractCssVarFallback trimmed with
    | Some (c :: f) => resolveColor rgb (c :: f)
    | _ => Throw (InvalidExpression value)
    end
  else if startsWith trimmed (js "oklch(") then
    convertOklchToFigma rgb trimmed
  else if startsWith trimmed (js "#") then convertHexToFigma trimmed
  else Throw (UnsupportedFormat value).
Proof.
  rewrite resolveColor_equation_1. cbv zeta.
  destruct (str_eqb (trim value) (js "transparent")); [reflexivity|].
  cbn [resolveColor_unfold_clause_1].
  destruct (startsWith (trim value) (js "var("));
    cbn [resolveColor_unfold_clause_1_clause_2].
  - transitivity
      (match proj1_sig (inspect (extractCssVarFallback (trim value))) with
       | Some (c :: f) => resolveColor rgb (c :: f)
       | _ => Throw (InvalidExpression value)
       end); [|reflexivity].
    generalize (inspect (extractCssVarFallback (trim value))).
    intros [[[|c f]|] H]; reflexivity.
  - destruct (startsWith (trim value) (js "oklch(")); [reflexivity|].
    cbn [resolveColor_unfold_clause_1_clause_2_clause_2].
    destruct (startsWith (trim value) (js "#")); reflexivity.
Qed.

(** ** [var(...)] references *)

Lemma strip_prefix_app (p s r : str) :
  strip_prefix p s = Some r -> s = p ++ r.
Proof.
  revert s. induction p as [|a p IH]; simpl; intros s H.
  - now inversion H.
  - destruct s as [|b s]; [discriminate|].
    destruct (ch_eqb a b) eqn:E; [|discriminate].
    apply ch_eqb_eq in E. subst b. f_equal. now apply IH.
Qed.

Lemma startsWith_app (s p : str) :
  startsWith s p = true -> exists r, s = p ++ r.
Proof.
  unfold startsWith. destruct (strip_prefix p s) as [r|] eqn:E;
    [|discriminate].
  intros _. exists r. now apply strip_prefix_app.
Qed.

Lemma endsWith_snoc (x : str) (c : char) : endsWith (x ++ [c]) [c] = true.
Proof.
  unfold endsWith, startsWith. rewrite rev_app_distr. simpl.
  unfold ch_eqb. now rewrite N.eqb_refl.
Qed.

(** On a trimmed string that starts with [var(], the two trims of
    [extractCssVarFallback] change nothing. *)
Lemma extractCssVarFallback_trimmed (t : str) :
  trim t = t -> startsWith t (js "var(") = true ->
  extractCssVarFallback t =
    if endsWith t (js ")") then
      match find_comma 0 0 t with
      | None => None
      | Some commaIndex =>
          Some (trim (slice (commaIndex + 1) (length t - 1) t))
      end
    else None.
Proof.
  intros Ht Hv. unfold extractCssVarFallback. rewrite Ht, Hv.
  destruct (startsWith_app _ _ Hv) as [r E].
  assert (trimEnd t = t) as ->.
  { rewrite E in *. apply trimEnd_of_trimmed; [reflexivity | exact Ht]. }
  destruct (endsWith t (js ")")); reflexivity.
Qed.

Lemma resolveColor_var (rgb : Oklch.t -> option Rgb.t) (value : str) :
  startsWith (trim value) (js "var(") = true ->
  resolveColor rgb value =
    match extractCssVarFallback (trim value) with
    | Some (c :: f) => resolveColor rgb (c :: f)
    | _ => Throw (InvalidExpression value)
    end.
Proof.
  intros Hv. rewrite resolveColor_eq. cbv zeta. rewrite Hv.
  destruct (startsWith_app _ _ Hv) as [r ->]. reflexivity.
Qed.

(** The shape of [var(--name, e)]: it is its own trim, the scan stops at
    the comma after the name, and the slice is [e] after a space. *)
Lemma var_expr_ends (name e : str) :
  var_expr name e = ch "v" :: (js "ar(--" ++ name ++ js ", " ++ e) ++ [ch ")"].
Proof.
  unfold var_expr. simpl. now rewrite <- !app_assoc.
Qed.

Lemma var_expr_split (name e : str) :
  var_expr name e = (js "var(--" ++ name ++ js ",") ++ ((ch " " :: e) ++ js ")").
Proof.
  unfold var_expr. simpl. now rewrite <- !app_assoc.
Qed.

Lemma var_expr_trim (name e : str) : trim (var_expr name e) = var_expr name e.
Proof. rewrite var_expr_ends. now apply trim_ends. Qed.

Lemma var_expr_comma (name e : str) :
  forallb name_char name = true ->
  find_comma 0 0 (var_expr name e) = Some (6 + length name).
Proof.
  intros H. unfold var_expr.
  change (find_comma 0 0 (js "var(--" ++ name ++ js ", " ++ e ++ js ")"))
    with (find_comma 1 6 (name ++ js ", " ++ e ++ js ")")).
  now rewrite find_comma_name.
Qed.

Lemma slice_middle (p m q : str) :
  slice (length p) (length (p ++ m ++ q) - length q) (p ++ m ++ q) = m.
Proof.
  unfold slice. rewrite skipn_app_length, !length_app.
  replace (length p + (length m + length q) - length q - length p)
    with (length m) by lia.
  apply firstn_app_length.
Qed.

Lemma var_expr_slice (name e : str) :
  slice (6 + length name + 1) (length (var_expr name e) - 1) (var_expr name e)
  = ch " " :: e.
Proof.
  rewrite var_expr_split.
  replace (6 + length name + 1)
    with (length (js "var(--" ++ name ++ js ","))
    by (rewrite !length_app; simpl; lia).
  apply (slice_middle (js "var(--" ++ name ++ js ",") (ch " " :: e) (js ")")).
Qed.

Lemma var_expr_fallback (name e : str) :
  forallb name_char name = true ->
  extractCssVarFallback (var_expr name e) = Some (trim e).
Proof.
  intros H.
  rewrite extractCssVarFallback_trimmed;
    [|apply var_expr_trim | reflexivity].
  assert (endsWith (var_expr name e) (js ")") = true) as ->.
  { rewrite var_expr_ends.
    change (ch "v" :: (js "ar(--" ++ name ++ js ", " ++ e) ++ [ch ")"])
      with ((ch "v" :: js "ar(--" ++ name ++ js ", " ++ e) ++ [ch ")"]).
    apply endsWith_snoc. }
  rewrite var_expr_comma by assumption.
  now rewrite var_expr_slice.
Qed.

(** Trimming the argument changes the outcome of [resolveColor] only in
    the string that an error names. *)
Lemma resolveColor_trim (rgb : Oklch.t -> option Rgb.t) (e : str) :
  same_outcome (resolveColor rgb (trim e)) (resolveColor rgb e).
Proof.
  rewrite (resolveColor_eq rgb (trim e)), (resolveColor_eq rgb e).
  cbv zeta. rewrite trim_idem.
  destruct (str_eqb (trim e) (js "transparent")); [reflexivity|].
  destruct (startsWith (trim e) (js "var(")).
  - destruct (extractCssVarFallback (trim e)) as [[|c f]|]; simpl;
      try reflexivity.
    destruct (resolveColor rgb (c :: f)); reflexivity.
  - destruct (startsWith (trim e) (js "oklch("));
      [destruct (convertOklchToFigma rgb (trim e)); reflexivity|].
    destruct (startsWith (trim e) (js "#"));
      [destruct (convertHexToFigma (trim e)); reflexivity|].
    reflexivity.
Qed.

(** ** Nesting, and how much shorter a fallback is *)

Lemma max_depth_shift (s : str) (d : Z) :
  max_depth d s = (d + max_depth 0 s)%Z.
Proof.
  revert d. induction s as [|c s IH]; intros d; simpl; [lia|].
  rewrite (IH (d + paren_delta c)%Z), (IH (paren_delta c)). lia.
Qed.

Lemma max_depth_ge (s : str) (d : Z) : (d <= max_depth d s)%Z.
Proof. destruct s; simpl; lia. Qed.

Lemma max_depth_firstn (s : str) :
  forall n d, (max_depth d (firstn n s) <= max_depth d s)%Z.
Proof.
  induction s as [|c s IH]; intros [|n] d; simpl; try lia.
  specialize (IH n (d + paren_delta c)%Z). lia.
Qed.

Lemma max_depth_skipn (s : str) :
  forall n d,
    (max_depth (d + paren_depth (firstn n s)) (skipn n s) <= max_depth d s)%Z.
Proof.
  induction s as [|c s IH]; intros [|n] d; simpl;
    rewrite ?Z.add_0_r; try lia.
  specialize (IH n (d + paren_delta c)%Z).
  rewrite Z.add_assoc. lia.
Qed.

Lemma ws_paren_delta (c : char) : is_ws c = true -> paren_delta c = 0%Z.
Proof.
  intros H. unfold paren_delta.
  assert (ch_eqb c (ch "(") = false) as -> by char_false.
  assert (ch_eqb c (ch ")") = false) as -> by char_false.
  reflexivity.
Qed.

Lemma max_depth_trimStart (s : str) (d : Z) :
  (max_depth d (trimStart s) <= max_depth d s)%Z.
Proof.
  unfold trimStart. induction s as [|c s IH]; simpl; [lia|].
  destruct (is_ws c) eqn:E; [|simpl; lia].
  rewrite (ws_paren_delta c E), Z.add_0_r. lia.
Qed.

Lemma max_depth_trimEnd (s : str) (d : Z) :
  (max_depth d (trimEnd s) <= max_depth d s)%Z.
Proof.
  destruct (trimEnd_firstn s) as [k ->]. apply max_depth_firstn.
Qed.

Lemma max_depth_trim (s : str) (d : Z) :
  (max_depth d (trim s) <= max_depth d s)%Z.
Proof.
  unfold trim. pose proof (max_depth_trimEnd (trimStart s) d).
  pose proof (max_depth_trimStart s d). lia.
Qed.

Lemma paren_depth_step (s : str) :
  forall k c, nth_error s k = Some c ->
    paren_depth (firstn (S k) s) = (paren_depth (firstn k s) + paren_delta c)%Z.
Proof.
  induction s as [|a s IH]; intros [|k] c H; try discriminate.
  - inversion H; subst. simpl. lia.
  - simpl in H. specialize (IH k c H).
    change (firstn (S (S k)) (a :: s)) with (a :: firstn (S k) s).
    change (firstn (S k) (a :: s)) with (a :: firstn k s).
    cbn [paren_depth]. lia.
Qed.

(** One level of nesting is used up by each fallback. *)
Lemma extractCssVarFallback_nesting (value fallback : str) :
  extractCssVarFallback value = Some fallback ->
  (max_depth 0 fallback + 1 <= max_depth 0 value)%Z.
Proof.
  unfold extractCssVarFallback.
  destruct (negb (startsWith (trim value) (js "var("))); [discriminate|].
  destruct (negb (endsWith (trimEnd (trim value)) (js ")"))); [discriminate|].
  set (t := trimEnd (trim value)).
  destruct (find_comma 0 0 t) as [k|] eqn:Hk; [|discriminate].
  intros H. inversion H; subst fallback. clear H.
  apply find_comma_some in Hk as (j & -> & Hn & Hd & _). simpl.
  pose proof (paren_depth_step t j (ch ",") Hn) as Hs.
  change (paren_delta (ch ",")) with 0%Z in Hs.
  pose proof (max_depth_skipn t (S j) 0) as H1.
  rewrite (max_depth_shift (skipn (S j) t)) in H1.
  unfold slice. rewrite Nat.add_1_r.
  pose proof (max_depth_trim
                (firstn (length t - 1 - S j) (skipn (S j) t)) 0) as H2.
  pose proof (max_depth_firstn (skipn (S j) t) (length t - 1 - S j) 0) as H3.
  pose proof (max_depth_trimEnd (trim value) 0) as H4.
  pose proof (max_depth_trim value 0) as H5.
  fold t in H4. lia.
Qed.

Lemma extractCssVarFallback_nesting_lt (value fallback : str) :
  extractCssVarFallback value = Some fallback ->
  nesting fallback < nesting value.
Proof.
  intros H. apply extractCssVarFallback_nesting in H.
  unfold nesting. pose proof (max_depth_ge fallback 0). lia.
Qed.

(** [var(], the comma and the closing parenthesis are gone from the
    fallback, with everything before the comma. *)
Lemma extractCssVarFallback_length (value fallback : str) :
  extractCssVarFallback value = Some fallback ->
  length fallback + 6 <= length value.
Proof.
  unfold extractCssVarFallback.
  destruct (startsWith (trim value) (js "var(")) eqn:Hv;
    [|simpl; discriminate].
  set (t := trimEnd (trim value)).
  destruct (endsWith t (js ")")) eqn:He; [|simpl; discriminate].
  destruct (find_comma 0 0 t) as [k|] eqn:Hk; [|simpl; discriminate].
  cbn [negb].
  intros H. inversion H; subst fallback. clear H.
  apply find_comma_some in Hk as (j & -> & Hn & _). simpl.
  (* the last character is the parenthesis, so the comma is before it *)
  unfold endsWith in He. apply startsWith_app in He as [x Hx].
  apply (f_equal (@rev char)) in Hx.
  rewrite rev_involutive, rev_app_distr in Hx. simpl in Hx.
  (* the first four characters are not commas *)
  apply startsWith_app in Hv as [r Hr].
  assert (4 <= j) as Hj.
  { destruct (trimEnd_firstn (trim value)) as [n Hn']. fold t in Hn'.
    rewrite Hn', nth_error_firstn, Hr in Hn.
    destruct (j <? n); [|discriminate Hn].
    destruct j as [|[|[|[|j]]]]; try discriminate Hn. lia. }
  assert (j < length t - 1) as Hlast.
  { assert (j < length t) as Hlt by (apply nth_error_Some; congruence).
    rewrite Hx in Hn, Hlt |- *. rewrite length_app in *. simpl in *.
    destruct (Nat.eq_dec j (length (rev x))) as [->|Hne]; [|lia].
    rewrite nth_error_app2, Nat.sub_diag in Hn by lia. discriminate Hn. }
  pose proof (trim_length (slice (j + 1) (length t - 1) t)) as H1.
  pose proof (slice_length (j + 1) (length t - 1) t) as H2.
  assert (length (slice (j + 1) (length t - 1) t) <= length t - 1 - (j + 1))
    as H3 by (unfold slice; rewrite length_firstn; lia).
  pose proof (trimEnd_length (trim value)) as H4.
  pose proof (trim_length value) as H5.
  fold t in H4. lia.
Qed.

Section Fallback.

Variable rgb : Oklch.t -> option Rgb.t.

(** C1, amended: for every name without comma or parenthesis and every
    [e] whose trimmed text is not empty, resolving [var(--name, e)] gives
    exactly what resolving the trimmed [e] gives, value or failure; this is
    the colour that resolving [e] gives, or a failure of the same kind as
    for [e], and the very result of [e] when [e] has no white space around
    it. [e] need not be balanced: the separator is the first comma at
    depth 1, which follows the name, so no comma of [e] is taken for it.
    [var(--x, var(--y, #000))] gives [{r: 0, g: 0, b: 0}]. *)
Theorem C1_var_fallback (name e : str) :
  forallb name_char name = true ->
  trim e <> [] ->
  resolveColor rgb (var_expr name e) = resolveColor rgb (trim e)
  /\ same_outcome (resolveColor rgb (var_expr name e)) (resolveColor rgb e)
  /\ (trim e = e -> resolveColor rgb (var_expr name e) = resolveColor rgb e)
  /\ resolveColor rgb (js "var(--x, var(--y, #000))") =
       Ok (FigmaColor.mk pos_zero pos_zero pos_zero None).
Proof.
  intros Hname He.
  assert (resolveColor rgb (var_expr name e) = resolveColor rgb (trim e)) as E.
  { rewrite resolveColor_var by (rewrite var_expr_trim; reflexivity).
    rewrite var_expr_trim, var_expr_fallback by assumption.
    destruct (trim e) as [|c f]; [contradiction | reflexivity]. }
  split; [exact E|]. split; [|split].
  - rewrite E. apply resolveColor_trim.
  - intros Ht. now rewrite E, Ht.
  - reflexivity.
Qed.

(** C8: a trimmed string that starts with [var(] and has no fallback,
    because it does not end with a closing parenthesis or because no comma
    stands at parenthesis depth 1, makes [resolveColor] fail with the
    error that says a variable cannot be resolved without a fallback; so
    does [var(--x)]. *)
Theorem C8_var_without_fallback (value : str) :
  trim value = value ->
  startsWith value (js "var(") = true ->
  endsWith value (js ")") = false \/ (forall i, ~ depth1_comma value i) ->
  resolveColor rgb value = Throw (InvalidExpression value)
  /\ resolveColor rgb (js "var(--x)") = Throw (InvalidExpression (js "var(--x)")).
Proof.
  intros Ht Hv Hno. split; [|reflexivity].
  rewrite resolveColor_var by now rewrite Ht.
  rewrite Ht, extractCssVarFallback_trimmed by assumption.
  destruct Hno as [He|Hc].
  - now rewrite He.
  - apply find_comma_absent in Hc. rewrite Hc.
    destruct (endsWith value (js ")")); reflexivity.
Qed.

(** C10: when the text between the first comma at depth 1 and the final
    closing parenthesis of a [var(...)] is empty or white space only, the
    fallback counts as absent: [resolveColor] fails with the same error as
    for a reference without a comma, and resolves no empty expression.
    [var(--x,)] and [var(--x,   )] are such inputs. *)
Theorem C10_blank_fallback (value : str) (i : nat) :
  startsWith (trim value) (js "var(") = true ->
  endsWith (trim value) (js ")") = true ->
  first_depth1_comma (trim value) i ->
  forallb is_ws (slice (i + 1) (length (trim value) - 1) (trim value)) = true ->
  resolveColor rgb value = Throw (InvalidExpression value)
  /\ resolveColor rgb (js "var(--x,)") = Throw (InvalidExpression (js "var(--x,)"))
  /\ resolveColor rgb (js "var(--x,   )") =
       Throw (InvalidExpression (js "var(--x,   )")).
Proof.
  intros Hv He Hc Hw. split; [|split; reflexivity].
  rewrite resolveColor_var by assumption.
  rewrite extractCssVarFallback_trimmed by (apply trim_idem || assumption).
  apply find_comma_first in Hc. rewrite He, Hc.
  now rewrite trim_all_ws.
Qed.

Lemma resolveColor_fuel_enough (n : nat) :
  forall value,
    nesting value < n ->
    resolveColor_fuel rgb n value = Some (resolveColor rgb value).
Proof.
  induction n as [|n IH]; intros value Hn; [lia|].
  rewrite resolveColor_eq. cbn [resolveColor_fuel]. cbv zeta.
  destruct (str_eqb (trim value) (js "transparent")); [reflexivity|].
  destruct (startsWith (trim value) (js "var("));
    [|destruct (startsWith (trim value) (js "oklch(")); [reflexivity|];
      destruct (startsWith (trim value) (js "#")); reflexivity].
  destruct (extractCssVarFallback (trim value)) as [[|c f]|] eqn:E;
    try reflexivity.
  apply IH. apply extractCssVarFallback_nesting_lt in E.
  pose proof (max_depth_trim value 0). pose proof (max_depth_ge value 0).
  unfold nesting in *. lia.
Qed.

(** C9: [resolveColor] returns on every string. Its only recursive call
    is on the fallback of a [var(...)], which is shorter than the input by
    at least the six characters of [var(], the comma and the closing
    parenthesis, and less deeply nested; so a call depth of one more than
    the parenthesis nesting of the input is always enough, and the
    function is total by recursion on the length. *)
Theorem C9_resolve_terminates (value : str) :
  resolveColor_fuel rgb (S (nesting value)) value =
    Some (resolveColor rgb value)
  /\ forall fallback,
       extractCssVarFallback (trim value) = Some fallback ->
       length fallback + 6 <= length value
       /\ nesting fallback < nesting value.
Proof.
  split; [apply resolveColor_fuel_enough; lia|].
  intros fallback E. split.
  - apply extractCssVarFallback_length in E.
    pose proof (trim_length value). lia.
  - apply extractCssVarFallback_nesting_lt in E.
    pose proof (max_depth_trim value 0). pose proof (max_depth_ge value 0).
    pose proof (max_depth_ge (trim value) 0).
    unfold nesting in *. lia.
Qed.

End Fallback.

(** An empty fallback is balanced, yet [var(--x, )] fails for want of a
    fallback while the empty string fails as an unsupported format,
    whatever the converter. *)
Lemma C1_counterexample :
  balanced [] = true
  /\ (forall rgb,
        resolveColor rgb (var_expr (js "x") []) =
          Throw (InvalidExpression (js "var(--x, )"))
        /\ resolveColor rgb [] = Throw (UnsupportedFormat []))
  /\ ~ C1_as_stated.
Proof.
  split; [reflexivity|]. split; [intros rgb; split; reflexivity|].
  intros H. specialize (H grey (js "x") [] eq_refl eq_refl).
  vm_compute in H. discriminate H.
Qed.

Lemma C1_var_fallback_witness :
  resolveColor grey (js "var(--kumo-brand, oklch(87% 0 0 / 0.8))") =
    resolveColor grey (js "oklch(87% 0 0 / 0.8)").
Proof.
  refine (proj1 (C1_var_fallback grey (js "kumo-brand")
                   (js "oklch(87% 0 0 / 0.8)") eq_refl _)).
  vm_compute. discriminate.
Defined.

Lemma C8_var_without_fallback_witness :
  resolveColor grey (js "var(--a(b,c))") =
    Throw (InvalidExpression (js "var(--a(b,c))")).
Proof.
  refine (proj1 (C8_var_without_fallback grey (js "var(--a(b,c))")
                   eq_refl eq_refl (or_intror _))).
  apply find_comma_absent. reflexivity.
Defined.

Lemma C10_blank_fallback_witness :
  resolveColor grey (js " var(--x(1,2), ) ") =
    Throw (InvalidExpression (js " var(--x(1,2), ) ")).
Proof.
  refine (proj1 (C10_blank_fallback grey (js " var(--x(1,2), ) ") 12
                   eq_refl eq_refl _ eq_refl)).
  apply find_comma_first. reflexivity.
Defined.

(** ** OKLCH expressions *)

Lemma resolveColor_oklch (rgb : Oklch.t -> option Rgb.t) (s : str) :
  trim s = s -> startsWith s (js "oklch(") = true ->
  resolveColor rgb s = convertOklchToFigma rgb s.
Proof.
  intros Ht Hs. rewrite resolveColor_eq. cbv zeta. rewrite Ht, Hs.
  destruct (startsWith_app _ _ Hs) as [r ->]. reflexivity.
Qed.

Lemma span_eq (p : char -> bool) (s : str) :
  s = fst (span p s) ++ snd (span p s).
Proof.
  induction s as [|c s IH]; simpl; [reflexivity|].
  destruct (p c); [|reflexivity].
  destruct (span p s) as [x y]. simpl in *. now rewrite IH at 1.
Qed.

Lemma span_fst_all (p : char -> bool) (s : str) :
  forallb p (fst (span p s)) = true.
Proof.
  induction s as [|c s IH]; simpl; [reflexivity|].
  destruct (p c) eqn:E; [|reflexivity].
  destruct (span p s) as [x y]. simpl in *. now rewrite E.
Qed.

Lemma dropWhile_split (p : char -> bool) (s : str) :
  exists w, s = w ++ dropWhile p s /\ forallb p w = true.
Proof.
  induction s as [|c s (w & E & H)]; [now exists []|]. simpl.
  destruct (p c) eqn:Ec; [|now exists []].
  exists (c :: w). simpl. rewrite Ec. split; [now f_equal | exact H].
Qed.

Lemma class_excludes (p : char -> bool) (c : char) (s : str) :
  p c = false -> forallb p s = true -> ~ In c s.
Proof.
  intros Hc Hs Hin. rewrite forallb_forall in Hs.
  apply Hs in Hin. congruence.
Qed.

(** Every string of the specification's shape is matched by the pattern
    of the source at its first character, and the alpha group takes part
    in the match exactly when the string holds a slash. *)
Lemma oklch_shape_matches (s : str) :
  oklch_shape s = true ->
  exists m,
    oklch_match_at s = Some m
    /\ (alphaStr m <> None <-> In (ch "/") s).
Proof.
  unfold oklch_shape, oklch_match_at.
  destruct (strip_prefix (js "oklch(") s) as [s0|] eqn:E0; [|discriminate].
  apply strip_prefix_app in E0.
  destruct (dropWhile_split is_ws s0) as (wA & EA & HwA).
  set (x0 := dropWhile is_ws s0) in *. clearbody x0.
  pose proof (span_eq is_numch x0) as EL.
  pose proof (span_fst_all is_numch x0) as HL.
  destruct (span is_numch x0) as [L s1]. simpl in EL, HL.
  set (s2 := match s1 with
             | c :: u => if ch_eqb c (ch "%") then u else s1
             | [] => s1
             end).
  assert (exists lstr pct,
            (match s1 with
             | c :: u => if ch_eqb c (ch "%") then (L ++ [c], u) else (L, s1)
             | [] => (L, s1)
             end) = (lstr, s2)
            /\ s1 = pct ++ s2 /\ ~ In (ch "/") pct) as (lstr & pct & -> & Ep & Hp).
  { subst s2. destruct s1 as [|c u]; [now exists L, []|].
    destruct (ch_eqb c (ch "%")) eqn:Ec; [|now exists L, []].
    apply ch_eqb_eq in Ec. subst c. exists (L ++ [ch "%"]), [ch "%"].
    repeat split. intros [Hin|[]]. discriminate Hin. }
  clearbody s2.
  pose proof (span_eq is_ws s2) as Ew1.
  pose proof (span_fst_all is_ws s2) as Hw1.
  destruct (span is_ws s2) as [w1 s3]. simpl in Ew1, Hw1.
  pose proof (span_eq is_numch s3) as EC.
  pose proof (span_fst_all is_numch s3) as HC.
  destruct (span is_numch s3) as [C s4]. simpl in EC, HC.
  pose proof (span_eq is_ws s4) as Ew2.
  pose proof (span_fst_all is_ws s4) as Hw2.
  destruct (span is_ws s4) as [w2 s5]. simpl in Ew2, Hw2.
  pose proof (span_eq is_numch s5) as EH.
  pose proof (span_fst_all is_numch s5) as HH.
  destruct (span is_numch s5) as [H s6]. simpl in EH, HH.
  destruct (dropWhile_split is_ws s6) as (wB & EB & HwB).
  assert (dropWhile is_ws (dropWhile is_ws s6) = dropWhile is_ws s6) as Hs7
    by apply dropWhile_idem.
  set (s7 := dropWhile is_ws s6) in *. clearbody s7.
  assert (s = js "oklch(" ++ wA ++ L ++ pct ++ w1 ++ C ++ w2 ++ H ++ wB ++ s7)
    as Es by (now subst s s0 x0 s1 s2 s3 s4 s5 s6).
  clear E0 EA EL Ep Ew1 EC Ew2 EH EB.
  assert (forall x : str, is_number x = true -> x <> []) as Hne
    by (intros x Hx ->; discriminate Hx).
  intros Hshape.
  destruct s7 as [|c u].
  - repeat (apply andb_true_iff in Hshape as [Hshape ?]). discriminate.
  - destruct (ch_eqb c (ch "/")) eqn:Eslash.
    + destruct (span is_numch (dropWhile is_ws u)) as [A v].
      apply andb_true_iff in Hshape as [Hshape Hend].
      apply andb_true_iff in Hshape as [Hshape HA].
      apply andb_true_iff in Hshape as [Hshape HnH].
      apply andb_true_iff in Hshape as [Hshape Hn2].
      apply andb_true_iff in Hshape as [Hshape HnC].
      apply andb_true_iff in Hshape as [HnL Hn1].
      apply Hne in HnL, HnC, HnH, HA.
      destruct L; [contradiction|]. destruct w1; [discriminate|].
      destruct C; [contradiction|]. destruct w2; [discriminate|].
      destruct H; [contradiction|]. destruct A; [contradiction|].
      destruct (dropWhile is_ws v) as [|p [|? ?]]; simpl in Hend;
        rewrite ?andb_false_r, ?andb_true_r in Hend; try discriminate Hend.
      change (ch_eqb p (ch ")") = true) in Hend. rewrite Hend.
      eexists. split; [reflexivity|]. simpl alphaStr.
      split; [intros _|discriminate].
      apply ch_eqb_eq in Eslash. subst c. rewrite Es.
      rewrite !in_app_iff. do 9 right. now left.
    + apply andb_true_iff in Hshape as [Hshape Hend].
      apply andb_true_iff in Hshape as [Hshape _].
      apply andb_true_iff in Hshape as [Hshape HnH].
      apply andb_true_iff in Hshape as [Hshape Hn2].
      apply andb_true_iff in Hshape as [Hshape HnC].
      apply andb_true_iff in Hshape as [HnL Hn1].
      apply Hne in HnL, HnC, HnH. rewrite Hs7.
      destruct u as [|? ?]; simpl in Hend;
        rewrite ?andb_false_r, ?andb_true_r in Hend; try discriminate Hend.
      change (ch_eqb c (ch ")") = true) in Hend. rewrite Hend.
      assert (~ In (ch "/") s) as Hnot.
      { rewrite Es, !in_app_iff.
        pose proof (class_excludes is_ws (ch "/") wA eq_refl HwA).
        pose proof (class_excludes is_numch (ch "/") L eq_refl HL).
        pose proof (class_excludes is_ws (ch "/") w1 eq_refl Hw1).
        pose proof (class_excludes is_numch (ch "/") C eq_refl HC).
        pose proof (class_excludes is_ws (ch "/") w2 eq_refl Hw2).
        pose proof (class_excludes is_numch (ch "/") H eq_refl HH).
        pose proof (class_excludes is_ws (ch "/") wB eq_refl HwB).
        apply ch_eqb_eq in Hend. subst c.
        assert (~ In (ch "/") (js "oklch("))
          by (simpl; intros Hin; repeat destruct Hin as [Hin|Hin];
              try discriminate Hin; exact Hin).
        assert (~ In (ch "/") [ch ")"])
          by (intros [Hin|[]]; discriminate Hin).
        tauto. }
      destruct L; [contradiction|]. destruct w1; [discriminate|].
      destruct C; [contradiction|]. destruct w2; [discriminate|].
      destruct H; [contradiction|].
      eexists. split; [reflexivity|]. simpl alphaStr.
      split; [intros Hc; now contradiction Hc | intros Hin; contradiction].
Qed.

Lemma oklch_exec_eq (s : str) :
  oklch_exec s =
    match oklch_match_at s with
    | Some m => Some m
    | None =>
        match s with
        | [] => None
        | _ :: rest => oklch_exec rest
        end
    end.
Proof. destruct s; reflexivity. Qed.

Lemma oklch_shape_exec (s : str) :
  oklch_shape s = true -> oklch_exec s <> None.
Proof.
  intros H. apply oklch_shape_matches in H as (m & Hm & _).
  rewrite oklch_exec_eq, Hm. discriminate.
Qed.

(** In a string of the specification's shape the alpha clause is there
    exactly when a slash is. *)
Lemma alpha_token_shape (s : str) :
  oklch_shape s = true -> (alpha_token s <> None <-> In (ch "/") s).
Proof.
  intros H. apply oklch_shape_matches in H as (m & Hm & Hiff).
  unfold alpha_token. now rewrite oklch_exec_eq, Hm.
Qed.

Section OklchFormat.

Variable rgb : Oklch.t -> option Rgb.t.

Lemma convertOklchToFigma_invalid (s : str) :
  convertOklchToFigma rgb s = Throw (InvalidOklch s) <-> oklch_exec s = None.
Proof.
  unfold convertOklchToFigma. destruct (oklch_exec s) as [m|].
  - split; [|discriminate]. destruct (rgb _); discriminate.
  - now split.
Qed.

(** C4, amended: a trimmed string that starts with [oklch(] makes
    [resolveColor] fail with the invalid-OKLCH error, naming that string,
    exactly when the pattern of the source matches nowhere in it. The
    pattern is not anchored and takes any run of digits and points for a
    number: it matches every string of the shape [oklch( L C H [ / A ] )],
    so a string that fails this way is not of the shape, and it matches
    other strings as well. [oklch(bad)] fails with the invalid-OKLCH
    error. *)
Theorem C4_invalid_oklch (s : str) :
  trim s = s ->
  startsWith s (js "oklch(") = true ->
  (resolveColor rgb s = Throw (InvalidOklch s) <-> oklch_exec s = None)
  /\ (oklch_exec s = None -> oklch_shape s = false)
  /\ resolveColor rgb (js "oklch(bad)") = Throw (InvalidOklch (js "oklch(bad)")).
Proof.
  intros Ht Hs. split; [|split; [|reflexivity]].
  - rewrite resolveColor_oklch by assumption.
    apply convertOklchToFigma_invalid.
  - intros Hnone. destruct (oklch_shape s) eqn:E; [|reflexivity].
    now apply oklch_shape_exec in E.
Qed.

End OklchFormat.

(** [1.2.3] is no number, yet [oklch(1.2.3 0 0)] goes to the converter
    with the lightness 1.2: the invalid-OKLCH error is not raised, whatever
    the converter. *)
Lemma C4_counterexample :
  oklch_shape (js "oklch(1.2.3 0 0)") = false
  /\ (forall rgb,
        resolveColor rgb (js "oklch(1.2.3 0 0)") =
          match rgb (Oklch.mk (parseFloat (js "1.2")) pos_zero pos_zero) with
          | Some c =>
              Ok (FigmaColor.mk
                    (Math_max pos_zero (Math_min one (Rgb.r c)))
                    (Math_max pos_zero (Math_min one (Rgb.g c)))
                    (Math_max pos_zero (Math_min one (Rgb.b c))) None)
          | None => Throw (ConversionFailed (js "oklch(1.2.3 0 0)"))
          end)
  /\ ~ C4_as_stated.
Proof.
  split; [reflexivity|]. split.
  - intros rgb. now rewrite resolveColor_oklch.
  - intros H.
    specialize (H grey (js "oklch(1.2.3 0 0)") eq_refl eq_refl eq_refl).
    vm_compute in H. discriminate H.
Qed.

Lemma C4_invalid_oklch_witness :
  (resolveColor grey (js "oklch(50% 0.1)") =
     Throw (InvalidOklch (js "oklch(50% 0.1)"))
   <-> oklch_exec (js "oklch(50% 0.1)") = None).
Proof.
  exact (proj1 (C4_invalid_oklch grey (js "oklch(50% 0.1)") eq_refl eq_refl)).
Defined.

(** ** Numbers: signs and the unit interval *)

(** Rounding keeps the sign: a quotient of two positive numbers is not
    negative. *)
Lemma binary_round_aux_sign (m e : Z) (l : location) :
  is_nan (binary_round_aux prec emax false m e l) = true
  \/ leb pos_zero (binary_round_aux prec emax false m e l) = true.
Proof.
  unfold binary_round_aux.
  destruct (shr_fexp prec emax m e l) as [mrs1 e1].
  destruct (shr_fexp prec emax _ e1 loc_Exact) as [mrs2 e2].
  destruct (shr_m mrs2); [now right | | now left].
  destruct (Z.leb e2 (Z.sub emax prec)); now right.
Qed.

Lemma of_ratio_sign (num den : positive) :
  is_nan (of_ratio false num den) = true
  \/ leb pos_zero (of_ratio false num den) = true.
Proof.
  unfold of_ratio, SFdiv.
  destruct (SFdiv_core_binary prec emax (Z.pos num) 0 (Z.pos den) 0)
    as [[mz ez] lz].
  apply binary_round_aux_sign.
Qed.

(** [parseFloat] of a run of digits and points is NaN or not negative. *)
Lemma parseFloat_token_sign (tok : str) :
  forallb is_numch tok = true ->
  is_nan (parseFloat tok) = true \/ leb pos_zero (parseFloat tok) = true.
Proof.
  destruct tok as [|c t]; [now left|]. intros H. simpl in H.
  apply andb_true_iff in H as [Hc _].
  unfold parseFloat, trimStart. cbn [dropWhile].
  rewrite (numch_not_ws c Hc). unfold take_sign.
  assert (ch_eqb c (ch "-") = false) as -> by char_false.
  assert (ch_eqb c (ch "+") = false) as -> by char_false.
  assert (startsWith (c :: t) (js "Infinity") = false) as ->.
  { unfold startsWith. cbn [js strip_prefix].
    assert (ch_eqb (ch "I") c = false) as -> by char_false. reflexivity. }
  destruct (span is_digit (c :: t)) as [ip t1].
  destruct (match t1 with
            | [] => ([], t1)
            | c0 :: u =>
                if ch_eqb c0 (ch ".") then span is_digit u else ([], t1)
            end) as [fp t2].
  destruct (ip ++ fp) as [|d ds]; [now left|].
  unfold of_decimal.
  destruct (digits_val 10 digit_val (d :: ds)); [now right| |now right].
  destruct (exponent_part t2 - Z.of_nat (length fp))%Z;
    apply of_ratio_sign.
Qed.

(** The clamp [Math.max(0, Math.min(1, x))]: into the unit interval for
    every number, and NaN for NaN. *)
Lemma clamp_unit (x : number) :
  is_nan x = false -> in_unit (Math_max pos_zero (Math_min one x)) = true.
Proof.
  destruct x as [[|]|[|]| |[|] m e]; try discriminate; intros _;
    try reflexivity.
  unfold Math_max, Math_min, min_loop.
  change (is_nan one) with false. cbv iota.
  change (is_neg_zero one && is_pos_zero pos_inf) with false. cbv iota.
  change (ltb one pos_inf) with true. cbv iota.
  change (is_nan (S754_finite false m e)) with false. cbv iota.
  change (is_neg_zero (S754_finite false m e) && is_pos_zero one) with false.
  cbv iota.
  destruct (ltb (S754_finite false m e) one) eqn:E; [|reflexivity].
  unfold max_loop.
  change (is_nan pos_zero) with false. cbv iota.
  change (is_pos_zero pos_zero && is_neg_zero neg_inf) with false. cbv iota.
  change (ltb neg_inf pos_zero) with true. cbv iota.
  change (is_nan (S754_finite false m e)) with false. cbv iota.
  change (is_pos_zero (S754_finite false m e) && is_neg_zero pos_zero)
    with false. cbv iota.
  change (ltb pos_zero (S754_finite false m e)) with true. cbv iota.
  unfold in_unit.
  change (leb pos_zero (S754_finite false m e)) with true.
  unfold ltb, SFltb in E. unfold leb, SFleb.
  destruct (SFcompare (S754_finite false m e) one) as [[| |]|];
    try discriminate E; reflexivity.
Qed.

Lemma clamp_nan : Math_max pos_zero (Math_min one nan) = nan.
Proof. reflexivity. Qed.

Lemma byte_channel_unit (n : Z) :
  (0 <= n <= 255)%Z -> in_unit (div (of_Z n) n255) = true.
Proof.
  intros H.
  assert (forallb (fun k => in_unit (div (of_Z (Z.of_nat k)) n255))
                  (seq 0 256) = true) as A by (vm_compute; reflexivity).
  rewrite forallb_forall in A.
  specialize (A (Z.to_nat n)). rewrite Z2Nat.id in A by lia.
  apply A. apply in_seq. lia.
Qed.

(** ** What a successful resolution went through *)

Lemma str_eqb_eq (s t : str) : str_eqb s t = true <-> s = t.
Proof.
  revert t. induction s as [|a s IH]; intros [|b t]; simpl;
    try (split; [discriminate | discriminate]); [now split|].
  rewrite andb_true_iff, ch_eqb_eq, IH. split.
  - now intros [-> ->].
  - intros E. now inversion E.
Qed.

(** The alpha group of a match is a non-empty run of digits and
    points. *)
Lemma oklch_match_at_alpha (s : str) (m : oklch_groups) (tok : str) :
  oklch_match_at s = Some m -> alphaStr m = Some tok ->
  tok <> [] /\ forallb is_numch tok = true.
Proof.
  unfold oklch_match_at.
  destruct (strip_prefix (js "oklch(") s) as [s0|]; [|discriminate].
  destruct (span is_numch (dropWhile is_ws s0)) as [L s1].
  destruct (match s1 with
            | [] => (L, s1)
            | c :: u => if ch_eqb c (ch "%") then (L ++ [c], u) else (L, s1)
            end) as [lstr s2].
  destruct (span is_ws s2) as [w1 s3].
  destruct (span is_numch s3) as [C s4].
  destruct (span is_ws s4) as [w2 s5].
  destruct (span is_numch s5) as [H s6].
  assert (forall (astr : option str) (s8 : str),
            (forall a, astr = Some a -> forallb is_numch a = true) ->
            match L, w1, C, w2, H, astr, dropWhile is_ws s8 with
            | _ :: _, _ :: _, _ :: _, _ :: _, _ :: _, Some [], _ => None
            | _ :: _, _ :: _, _ :: _, _ :: _, _ :: _, _, c :: _ =>
                if ch_eqb c (ch ")")
                then Some (mk_groups lstr C H astr) else None
            | _, _, _, _, _, _, _ => None
            end = Some m ->
            alphaStr m = Some tok ->
            tok <> [] /\ forallb is_numch tok = true) as Final.
  { intros astr s8 Hnum Hm Ha.
    destruct L; [discriminate|]. destruct w1; [discriminate|].
    destruct C; [discriminate|]. destruct w2; [discriminate|].
    destruct H; [discriminate|].
    destruct astr as [[|a0 a]|].
    - discriminate.
    - destruct (dropWhile is_ws s8) as [|p r]; [discriminate|].
      destruct (ch_eqb p (ch ")")); [|discriminate].
      inversion Hm; subst m. simpl in Ha. inversion Ha; subst tok.
      split; [discriminate | now apply Hnum].
    - destruct (dropWhile is_ws s8) as [|p r]; [discriminate|].
      destruct (ch_eqb p (ch ")")); [|discriminate].
      inversion Hm; subst m. discriminate Ha. }
  destruct (dropWhile is_ws s6) as [|c u].
  - apply (Final None []). intros a Ha. discriminate Ha.
  - destruct (ch_eqb c (ch "/")).
    + pose proof (span_fst_all is_numch (dropWhile is_ws u)) as Hall.
      destruct (span is_numch (dropWhile is_ws u)) as [a v].
      apply (Final (Some a) v). intros a' Ha'. inversion Ha'; subst a'.
      exact Hall.
    + apply (Final None (c :: u)). intros a Ha. discriminate Ha.
Qed.

Lemma oklch_exec_alpha (s : str) (m : oklch_groups) (tok : str) :
  oklch_exec s = Some m -> alphaStr m = Some tok ->
  tok <> [] /\ forallb is_numch tok = true.
Proof.
  induction s as [|c s IH]; rewrite oklch_exec_eq;
    destruct (oklch_match_at _) as [m'|] eqn:E; intros Hm Ha;
    try discriminate Hm.
  - inversion Hm; subst m'. eapply oklch_match_at_alpha; eassumption.
  - inversion Hm; subst m'. eapply oklch_match_at_alpha; eassumption.
  - now apply IH.
Qed.

Section Outcome.

Variable rgb : Oklch.t -> option Rgb.t.

(** A result [Ok] is the result of the final expression. *)
Lemma resolveColor_final_aux (n : nat) :
  forall value color,
    length value < n ->
    resolveColor rgb value = Ok color ->
    exists leaf,
      final_expression value leaf /\ trim leaf = leaf
      /\ startsWith leaf (js "var(") = false
      /\ resolveColor rgb leaf = Ok color.
Proof.
  induction n as [|n IH]; intros value color Hlen Hok; [lia|].
  destruct (startsWith (trim value) (js "var(")) eqn:Hv.
  - rewrite resolveColor_var in Hok by assumption.
    destruct (extractCssVarFallback (trim value)) as [[|c f]|] eqn:E;
      try discriminate Hok.
    pose proof (extractCssVarFallback_shorter _ _ E) as Hs.
    pose proof (trim_length value) as Ht.
    destruct (IH (c :: f) color ltac:(lia) Hok) as (leaf & Hf & H1 & H2 & H3).
    exists leaf. repeat split; try assumption.
    now apply final_var with c f.
  - exists (trim value). repeat split.
    + now apply final_leaf.
    + apply trim_idem.
    + exact Hv.
    + pose proof (resolveColor_trim rgb value) as Hsame.
      rewrite Hok in Hsame. destruct (resolveColor rgb (trim value));
        simpl in Hsame; [now subst | contradiction].
Qed.

Lemma resolveColor_final (value : str) (color : FigmaColor.t) :
  resolveColor rgb value = Ok color ->
  exists leaf,
    final_expression value leaf /\ trim leaf = leaf
    /\ startsWith leaf (js "var(") = false
    /\ resolveColor rgb leaf = Ok color.
Proof. apply (resolveColor_final_aux (S (length value))). lia. Qed.

(** The three ways a final expression gives a colour. *)
Lemma resolveColor_leaf (leaf : str) (color : FigmaColor.t) :
  trim leaf = leaf -> startsWith leaf (js "var(") = false ->
  resolveColor rgb leaf = Ok color ->
  (leaf = js "transparent" /\ color = transparent)
  \/ (leaf <> js "transparent" /\ startsWith leaf (js "oklch(") = true
      /\ convertOklchToFigma rgb leaf = Ok color)
  \/ (leaf <> js "transparent" /\ startsWith leaf (js "oklch(") = false
      /\ convertHexToFigma leaf = Ok color).
Proof.
  intros Ht Hv. rewrite resolveColor_eq. cbv zeta. rewrite Ht, Hv.
  destruct (str_eqb leaf (js "transparent")) eqn:E.
  - apply str_eqb_eq in E. intros H. inversion H. now left.
  - assert (leaf <> js "transparent") as Hne
      by (intros ->; discriminate E).
    destruct (startsWith leaf (js "oklch(")); [now right; left|].
    destruct (startsWith leaf (js "#")); [now right; right | discriminate].
Qed.

Lemma convertOklchToFigma_ok (s : str) (color : FigmaColor.t) :
  convertOklchToFigma rgb s = Ok color ->
  exists m o c,
    oklch_exec s = Some m /\ rgb o = Some c
    /\ FigmaColor.r color = Math_max pos_zero (Math_min one (Rgb.r c))
    /\ FigmaColor.g color = Math_max pos_zero (Math_min one (Rgb.g c))
    /\ FigmaColor.b color = Math_max pos_zero (Math_min one (Rgb.b c))
    /\ FigmaColor.a color =
         match alphaStr m with
         | Some ((_ :: _) as a) => Some (parseFloat a)
         | _ => None
         end.
Proof.
  unfold convertOklchToFigma.
  destruct (oklch_exec s) as [m|]; [|discriminate].
  destruct (rgb _) as [c|] eqn:E; [|discriminate].
  intros H. inversion H; subst color. simpl.
  exists m. eexists. exists c. repeat split. exact E.
Qed.

Lemma convertHexToFigma_ok (s : str) (color : FigmaColor.t) :
  convertHexToFigma s = Ok color ->
  FigmaColor.a color = None
  /\ in_unit (FigmaColor.r color) = true
  /\ in_unit (FigmaColor.g color) = true
  /\ in_unit (FigmaColor.b color) = true.
Proof.
  unfold convertHexToFigma, hex6_match.
  destruct (expand_shorthand s) as [|p body]; [discriminate|].
  destruct (ch_eqb p (ch "#") && (length body =? 6) && forallb is_hex body)
    eqn:E; [|discriminate].
  apply andb_true_iff in E as [E Hhex].
  apply andb_true_iff in E as [_ Hlen]. apply Nat.eqb_eq in Hlen.
  destruct body as [|d1 [|d2 [|d3 [|d4 [|d5 [|d6 [|? ?]]]]]]];
    try discriminate Hlen.
  simpl in Hhex.
  repeat (apply andb_true_iff in Hhex as [? Hhex]).
  intros Hok. inversion Hok; subst color. clear Hok. simpl.
  unfold substring, slice. cbn [skipn firstn Nat.sub].
  rewrite !parseInt16_pair by assumption.
  repeat split; apply byte_channel_unit;
    repeat match goal with
      | Hd : is_hex ?d = true |- _ =>
          apply hex_val_bounds in Hd
      end; lia.
Qed.

End Outcome.

(** ** Channels and alpha *)

Section Channels.

Variable rgb : Oklch.t -> option Rgb.t.

(** Apart from NaN the channels are in the unit interval: they are when
    the converter gives numbers. *)
Lemma channels_in_unit (value : str) (color : FigmaColor.t) :
  (forall o c, rgb o = Some c ->
     is_nan (Rgb.r c) = false /\ is_nan (Rgb.g c) = false
     /\ is_nan (Rgb.b c) = false) ->
  resolveColor rgb value = Ok color ->
  in_unit (FigmaColor.r color) = true
  /\ in_unit (FigmaColor.g color) = true
  /\ in_unit (FigmaColor.b color) = true.
Proof.
  intros Hnum Hok.
  apply resolveColor_final in Hok as (leaf & _ & Ht & Hv & Hok).
  apply resolveColor_leaf in Hok as [[_ ->]|[(_ & _ & Hc)|(_ & _ & Hc)]];
    try assumption.
  - now repeat split.
  - apply convertOklchToFigma_ok in Hc
      as (m & o & c & _ & Hc & -> & -> & -> & _).
    destruct (Hnum o c Hc) as (Hr & Hg & Hb).
    repeat split; now apply clamp_unit.
  - now apply convertHexToFigma_ok in Hc.
Qed.

(** C2, at the input that breaks it: the lightness token [.] of
    [oklch(. 0 0)] is taken by the pattern and parsed to NaN; when the
    converter hands NaN on, as culori does through its arithmetic, the
    clamp leaves NaN, and the channel returned is not in [[0,1]]. *)
Theorem C2_nan_channel (c : Rgb.t) :
  rgb (Oklch.mk nan pos_zero pos_zero) = Some c ->
  is_nan (Rgb.r c) = true ->
  exists color,
    resolveColor rgb (js "oklch(. 0 0)") = Ok color
    /\ is_nan (FigmaColor.r color) = true
    /\ in_unit (FigmaColor.r color) = false.
Proof.
  intros Hc Hnan.
  rewrite resolveColor_oklch by reflexivity.
  assert (convertOklchToFigma rgb (js "oklch(. 0 0)") =
            match rgb (Oklch.mk nan pos_zero pos_zero) with
            | None => Throw (ConversionFailed (js "oklch(. 0 0)"))
            | Some rgbColor =>
                Ok (FigmaColor.mk
                      (Math_max pos_zero (Math_min one (Rgb.r rgbColor)))
                      (Math_max pos_zero (Math_min one (Rgb.g rgbColor)))
                      (Math_max pos_zero (Math_min one (Rgb.b rgbColor)))
                      None)
            end) as -> by reflexivity.
  rewrite Hc. eexists. split; [reflexivity|]. simpl FigmaColor.r.
  destruct (Rgb.r c); try discriminate Hnan. now split.
Qed.

(** C3, amended: an [a] field is [0] for [transparent] and otherwise the
    alpha token of the final OKLCH expression as [parseFloat] reads it,
    not clamped: it is never negative, and it is within [[0,1]] when the
    token denotes a number of that interval, but [oklch(50% 0 0 / 2)]
    has the alpha token [2], which is returned as it is. *)
Theorem C3_alpha_unclamped (value : str) (color : FigmaColor.t) (x : number) :
  resolveColor rgb value = Ok color ->
  FigmaColor.a color = Some x ->
  (exists leaf,
     final_expression value leaf
     /\ ((leaf = js "transparent" /\ x = pos_zero)
         \/ (exists tok, alpha_token leaf = Some tok /\ x = parseFloat tok)))
  /\ (is_nan x = true \/ leb pos_zero x = true)
  /\ alpha_token (js "oklch(50% 0 0 / 2)") = Some (js "2")
  /\ parseFloat (js "2") = of_Z 2
  /\ in_unit (of_Z 2) = false.
Proof.
  intros Hok Ha.
  assert ((exists leaf,
            final_expression value leaf
            /\ ((leaf = js "transparent" /\ x = pos_zero)
                \/ (exists tok,
                      alpha_token leaf = Some tok /\ x = parseFloat tok
                      /\ forallb is_numch tok = true)))) as (leaf & Hf & Hx).
  { apply resolveColor_final in Hok as (leaf & Hf & Ht & Hv & Hok).
    exists leaf. split; [exact Hf|].
    apply resolveColor_leaf in Hok as [[-> ->]|[(_ & _ & Hc)|(_ & _ & Hc)]];
      try assumption.
    - left. split; [reflexivity|]. simpl in Ha. now inversion Ha.
    - right. apply convertOklchToFigma_ok in Hc
        as (m & o & c & Hm & _ & _ & _ & _ & Halpha).
      rewrite Halpha in Ha.
      destruct (alphaStr m) as [[|a0 a]|] eqn:Em; try discriminate Ha.
      inversion Ha; subst x. exists (a0 :: a).
      unfold alpha_token. rewrite Hm. repeat split; [exact Em|].
      now apply (oklch_exec_alpha leaf m (a0 :: a) Hm Em).
    - apply convertHexToFigma_ok in Hc as [Hnone _].
      rewrite Hnone in Ha. discriminate Ha. }
  split; [|split; [|repeat split]].
  - exists leaf. split; [exact Hf|].
    destruct Hx as [Hx|(tok & H1 & H2 & _)]; [now left|].
    right. now exists tok.
  - destruct Hx as [[_ ->]|(tok & _ & -> & Hnum)]; [now right|].
    now apply parseFloat_token_sign.
Qed.

(** C5: when [resolveColor] succeeds, the colour has an [a] field if and
    only if the final expression, after trimming and after every
    fallback, is the literal [transparent] or an OKLCH expression with an
    alpha clause; so hex colours and OKLCH expressions without the clause
    give no [a]. The alpha clause is the alpha group of the pattern; in an
    expression of the shape [oklch( L C H [ / A ] )] it is there exactly
    when the slash is: [oklch(87% 0 0 / 0.8)] has the alpha token [0.8],
    and [oklch(21% 0.006 285.885)] has none. *)
Theorem C5_alpha_presence (value : str) (color : FigmaColor.t) :
  resolveColor rgb value = Ok color ->
  (exists leaf,
     final_expression value leaf
     /\ (FigmaColor.a color <> None <->
         leaf = js "transparent"
         \/ (startsWith leaf (js "oklch(") = true
             /\ alpha_token leaf <> None)))
  /\ (forall s, oklch_shape s = true ->
        (alpha_token s <> None <-> In (ch "/") s))
  /\ alpha_token (js "oklch(87% 0 0 / 0.8)") = Some (js "0.8")
  /\ alpha_token (js "oklch(21% 0.006 285.885)") = None.
Proof.
  intros Hok. split; [|split; [apply alpha_token_shape | split; reflexivity]].
  apply resolveColor_final in Hok as (leaf & Hf & Ht & Hv & Hok).
  exists leaf. split; [exact Hf|].
  apply resolveColor_leaf in Hok as [[-> ->]|[(Hne & Ho & Hc)|(Hne & Ho & Hc)]];
    try assumption.
  - split; [now left | discriminate].
  - apply convertOklchToFigma_ok in Hc
      as (m & o & c & Hm & _ & _ & _ & _ & Halpha).
    rewrite Halpha. unfold alpha_token. rewrite Hm. split.
    + intros Ha. right. split; [exact Ho|].
      destruct (alphaStr m); [discriminate | contradiction].
    + intros [Hl|[_ Ha]]; [contradiction|].
      destruct (alphaStr m) as [[|a0 a]|] eqn:Em;
        [|discriminate|contradiction].
      now destruct (oklch_exec_alpha leaf m [] Hm Em).
  - apply convertHexToFigma_ok in Hc as [Hnone _]. rewrite Hnone. split.
    + intros Ha. contradiction.
    + intros [Hl|[Ho' _]]; [contradiction | congruence].
Qed.

End Channels.

(** [oklch(50% 0 0 / 2)] resolves with [a] equal to 2, whenever the
    converter gives a colour. *)
Lemma C3_counterexample :
  (forall rgb color,
     resolveColor rgb (js "oklch(50% 0 0 / 2)") = Ok color ->
     FigmaColor.a color = Some (of_Z 2))
  /\ in_unit (of_Z 2) = false
  /\ ~ C3_as_stated.
Proof.
  split; [|split; [reflexivity|]].
  - intros rgb color. rewrite resolveColor_oklch by reflexivity.
    intros H. apply convertOklchToFigma_ok in H
      as (m & o & c & Hm & _ & _ & _ & _ & ->).
    change (oklch_exec (js "oklch(50% 0 0 / 2)"))
      with (Some (mk_groups (js "50%") (js "0") (js "0") (Some (js "2"))))
      in Hm.
    now inversion Hm.
  - intros H.
    specialize (H grey (js "oklch(50% 0 0 / 2)") _ (of_Z 2) eq_refl eq_refl).
    vm_compute in H. discriminate H.
Qed.

Lemma C2_nan_channel_witness :
  exists color,
    resolveColor grey (js "oklch(. 0 0)") = Ok color
    /\ is_nan (FigmaColor.r color) = true
    /\ in_unit (FigmaColor.r color) = false.
Proof.
  exact (C2_nan_channel grey (Rgb.mk nan nan nan) eq_refl eq_refl).
Defined.

Lemma C3_alpha_unclamped_witness :
  exists leaf,
    final_expression (js "var(--x, oklch(87% 0 0 / 0.8))") leaf
    /\ ((leaf = js "transparent" /\ parseFloat (js "0.8") = pos_zero)
        \/ (exists tok,
              alpha_token leaf = Some tok
              /\ parseFloat (js "0.8") = parseFloat tok)).
Proof.
  refine (proj1 (C3_alpha_unclamped grey (js "var(--x, oklch(87% 0 0 / 0.8))")
                   _ (parseFloat (js "0.8")) eq_refl eq_refl)).
Defined.

Lemma C5_alpha_presence_witness :
  exists leaf,
    final_expression (js " var(--x, transparent) ") leaf
    /\ (FigmaColor.a transparent <> None <->
        leaf = js "transparent"
        \/ (startsWith leaf (js "oklch(") = true
            /\ alpha_token leaf <> None)).
Proof.
  exact (proj1 (C5_alpha_presence grey (js " var(--x, transparent) ")
                  transparent eq_refl)).
Defined.

(** ** Hex colours *)

Section Hex.

Variable rgb : Oklch.t -> option Rgb.t.

Lemma convertHexToFigma_six (d1 d2 d3 d4 d5 d6 : char) :
  is_hex d1 = true -> is_hex d2 = true -> is_hex d3 = true ->
  is_hex d4 = true -> is_hex d5 = true -> is_hex d6 = true ->
  convertHexToFigma [ch "#"; d1; d2; d3; d4; d5; d6] =
    Ok (FigmaColor.mk
          (div (of_Z (16 * hex_val d1 + hex_val d2)) n255)
          (div (of_Z (16 * hex_val d3 + hex_val d4)) n255)
          (div (of_Z (16 * hex_val d5 + hex_val d6)) n255) None).
Proof.
  intros H1 H2 H3 H4 H5 H6.
  unfold convertHexToFigma, expand_shorthand, hex6_match.
  cbn [forallb]. rewrite H1, H2, H3, H4, H5, H6.
  match goal with
  | |- context [if ?b then _ else _] => change b with true
  end.
  cbv beta iota. unfold substring, slice.
  cbn [skipn firstn Nat.sub].
  now rewrite !parseInt16_pair by assumption.
Qed.

(** A string that starts with [#] and does not end with white space goes
    to [convertHexToFigma] as it is. *)
Lemma resolveColor_hex (m : str) (d : char) :
  is_ws d = false ->
  resolveColor rgb (ch "#" :: m ++ [d]) = convertHexToFigma (ch "#" :: m ++ [d]).
Proof.
  intros Hd. rewrite resolveColor_eq.
  rewrite trim_ends by (reflexivity || assumption).
  reflexivity.
Qed.

(** C6: for [#] followed by exactly six hexadecimal digits, in either
    case, [resolveColor] succeeds; [r], [g] and [b] are the base-16 values
    of the first, second and third pair of digits, each divided by 255,
    and there is no [a] field. In particular [#f6821f] gives
    [0xf6/255], [0x82/255] and [0x1f/255]. *)
Theorem C6_hex6_channels (d1 d2 d3 d4 d5 d6 : char) :
  is_hex d1 = true -> is_hex d2 = true -> is_hex d3 = true ->
  is_hex d4 = true -> is_hex d5 = true -> is_hex d6 = true ->
  resolveColor rgb (ch "#" :: [d1; d2; d3; d4; d5; d6]) =
    Ok (FigmaColor.mk (hex_channel d1 d2) (hex_channel d3 d4)
                      (hex_channel d5 d6) None)
  /\ resolveColor rgb (js "#f6821f") =
       Ok (FigmaColor.mk (div (of_Z 246) (of_Z 255))
                         (div (of_Z 130) (of_Z 255))
                         (div (of_Z 31) (of_Z 255)) None).
Proof.
  intros H1 H2 H3 H4 H5 H6. split; [|reflexivity].
  change (ch "#" :: [d1; d2; d3; d4; d5; d6])
    with (ch "#" :: [d1; d2; d3; d4; d5] ++ [d6]).
  rewrite resolveColor_hex by now apply hex_not_ws.
  cbn [app]. rewrite convertHexToFigma_six by assumption.
  unfold hex_channel. rewrite <- !hex_val_spec by assumption.
  reflexivity.
Qed.

(** C7: for hexadecimal digits [a], [b], [c], in either case, resolving
    [#abc] gives what resolving [#aabbcc] gives: the shorthand is expanded
    by doubling each digit before it is parsed. *)
Theorem C7_hex3_is_hex6 (a b c : char) :
  is_hex a = true -> is_hex b = true -> is_hex c = true ->
  resolveColor rgb [ch "#"; a; b; c] =
  resolveColor rgb [ch "#"; a; a; b; b; c; c].
Proof.
  intros Ha Hb Hc.
  change [ch "#"; a; b; c] with (ch "#" :: [a; b] ++ [c]).
  change [ch "#"; a; a; b; b; c; c] with (ch "#" :: [a; a; b; b; c] ++ [c]).
  rewrite !resolveColor_hex by now apply hex_not_ws.
  cbn [app].
  pose proof (convertHexToFigma_six a a b b c c Ha Ha Hb Hb Hc Hc) as E.
  rewrite E. unfold convertHexToFigma in *.
  change (expand_shorthand [ch "#"; a; a; b; b; c; c])
    with [ch "#"; a; a; b; b; c; c] in E.
  unfold expand_shorthand. rewrite Ha, Hb, Hc.
  change (ch_eqb (ch "#") (ch "#") && true && true && true) with true.
  cbv iota.
  destruct (hex6_match [ch "#"; a; a; b; b; c; c]);
    [exact E | discriminate E].
Qed.

End Hex.

Lemma C6_hex6_channels_witness :
  resolveColor grey (js "#F6821f") =
    Ok (FigmaColor.mk (hex_channel (ch "F") (ch "6"))
                      (hex_channel (ch "8") (ch "2"))
                      (hex_channel (ch "1") (ch "f")) None).
Proof.
  exact (proj1 (C6_hex6_channels grey (ch "F") (ch "6") (ch "8") (ch "2")
                                 (ch "1") (ch "f")
                                 eq_refl eq_refl eq_refl
                                 eq_refl eq_refl eq_refl)).
Defined.

Lemma C7_hex3_is_hex6_witness :
  resolveColor grey (js "#fA0") = resolveColor grey (js "#ffAA00").
Proof.
  exact (C7_hex3_is_hex6 grey (ch "f") (ch "A") (ch "0")
                         eq_refl eq_refl eq_refl).
Defined.


(* ===================================================================== *)
(** * Further properties of the resolver *)
(* ===================================================================== *)

(** ** Vocabulary *)

(** A hex body that [convertHexToFigma] accepts: three or six hexadecimal
    digits. *)
Definition hex_body_ok (body : str) : bool :=
  ((length body =? 3) || (length body =? 6)) && forallb is_hex body.

(** [var(--n1, var(--n2, ... e))], one reference inside the other. *)
Fixpoint var_chain (names : list str) (e : str) : str :=
  match names with
  | [] => e
  | name :: rest => var_expr name (var_chain rest e)
  end.

(** The clamp that the source applies to each channel. *)
Definition clamp01 (x : number) : number :=
  Math_max pos_zero (Math_min one x).

(** The text of an OKLCH expression from its parts: the tokens [L], [C]
    and [H], a percent sign after [L] when [percent] holds, the white
    space [w0] to [w3] around them, the alpha clause (white space, token,
    white space after the slash) when [alpha] is given, and whatever
    follows the closing parenthesis. *)
Definition percent_sign (percent : bool) : str :=
  if percent then [ch "%"] else [].

Definition oklch_text (w0 L : str) (percent : bool) (w1 C w2 H w3 : str)
    (alpha : option (str * str * str)) (tail : str) : str :=
  js "oklch(" ++ w0 ++ L ++ percent_sign percent ++ w1 ++ C ++ w2 ++ H ++ w3 ++
  match alpha with
  | Some (w4, A, w5) => ch "/" :: w4 ++ A ++ w5 ++ ch ")" :: tail
  | None => ch ")" :: tail
  end.

(** A token of the pattern: a non-empty run of digits and points; and a
    run of white space. *)
Definition token (t : str) : Prop := t <> [] /\ forallb is_numch t = true.
Definition blank (w : str) : Prop := forallb is_ws w = true.

(** The parts make an expression that the pattern reads as such. *)
Definition oklch_parts (w0 L w1 C w2 H w3 : str)
    (alpha : option (str * str * str)) : Prop :=
  blank w0 /\ token L /\ (blank w1 /\ w1 <> []) /\ token C
  /\ (blank w2 /\ w2 <> []) /\ token H /\ blank w3
  /\ match alpha with
     | Some (w4, A, w5) => blank w4 /\ token A /\ blank w5
     | None => True
     end.

(** An alpha clause from its token and the white space around it. *)
Definition alpha_clause (alpha : option str) (w4 w5 : str)
  : option (str * str * str) :=
  match alpha with
  | Some A => Some (w4, A, w5)
  | None => None
  end.

(** What the source computes from the tokens: the lightness over 100 when
    it carries a percent sign, the clamped channels of the converted
    colour, and the alpha as it is read. *)
Definition oklch_value (rgb : Oklch.t -> option Rgb.t) (text L : str)
    (percent : bool) (C H : str) (alpha : option (str * str * str)) : result :=
  let lightness :=
    if percent then div (parseFloat L) n100 else parseFloat L in
  match rgb (Oklch.mk lightness (parseFloat C) (parseFloat H)) with
  | None => Throw (ConversionFailed text)
  | Some c =>
      Ok (FigmaColor.mk (clamp01 (Rgb.r c)) (clamp01 (Rgb.g c))
                        (clamp01 (Rgb.b c))
                        match alpha with
                        | Some (_, A, _) => Some (parseFloat A)
                        | None => None
                        end)
  end.

(** [t] occurs in [s] as a run of consecutive characters. *)
Definition infix (t s : str) : Prop := exists pre post, s = pre ++ t ++ post.

(** ** White space around the input *)

Lemma same_outcome_refl (r : result) : same_outcome r r.
Proof. destruct r; reflexivity. Qed.

Lemma same_outcome_sym (r1 r2 : result) :
  same_outcome r1 r2 -> same_outcome r2 r1.
Proof. destruct r1, r2; simpl; auto. Qed.

Lemma same_outcome_trans (r1 r2 r3 : result) :
  same_outcome r1 r2 -> same_outcome r2 r3 -> same_outcome r1 r3.
Proof.
  destruct r1, r2, r3; simpl; try contradiction; intros; congruence.
Qed.

Lemma dropWhile_app (p : char -> bool) (s t : str) :
  dropWhile p (s ++ t) =
    match dropWhile p s with
    | [] => dropWhile p t
    | y => y ++ t
    end.
Proof.
  induction s as [|c s IH]; simpl; [now destruct (dropWhile p t)|].
  destruct (p c); [exact IH | reflexivity].
Qed.

Lemma forallb_rev (p : char -> bool) (s : str) :
  forallb p s = true -> forallb p (rev s) = true.
Proof.
  rewrite !forallb_forall. intros H x Hx. apply H. now apply in_rev.
Qed.

Lemma trimEnd_app_ws (x w : str) :
  forallb is_ws w = true -> trimEnd (x ++ w) = trimEnd x.
Proof.
  intros H. unfold trimEnd. rewrite rev_app_distr, dropWhile_app.
  now rewrite (dropWhile_all is_ws (rev w)) by now apply forallb_rev.
Qed.

Lemma trim_padding (w1 s w2 : str) :
  forallb is_ws w1 = true -> forallb is_ws w2 = true ->
  trim (w1 ++ s ++ w2) = trim s.
Proof.
  intros H1 H2. unfold trim, trimStart.
  rewrite dropWhile_app, (dropWhile_all is_ws w1 H1), dropWhile_app.
  rewrite (dropWhile_all is_ws w2 H2).
  destruct (dropWhile is_ws s) as [|c y] eqn:E; [reflexivity|].
  now apply trimEnd_app_ws.
Qed.

Section Padding.

Variable rgb : Oklch.t -> option Rgb.t.

(** X1: white space before and after the input does not matter: the
    padded string gives the colour of the bare one, or fails the way the
    bare one does. *)
Theorem X1_padding_ignored (w1 s w2 : str) (color : FigmaColor.t) :
  forallb is_ws w1 = true -> forallb is_ws w2 = true ->
  same_outcome (resolveColor rgb (w1 ++ s ++ w2)) (resolveColor rgb s)
  /\ (resolveColor rgb s = Ok color ->
      resolveColor rgb (w1 ++ s ++ w2) = Ok color).
Proof.
  intros H1 H2.
  assert (same_outcome (resolveColor rgb (w1 ++ s ++ w2)) (resolveColor rgb s))
    as Hsame.
  { apply same_outcome_trans with (resolveColor rgb (trim s)).
    - rewrite <- (trim_padding w1 s w2 H1 H2).
      apply same_outcome_sym, resolveColor_trim.
    - apply resolveColor_trim. }
  split; [exact Hsame|]. intros Hok. rewrite Hok in Hsame.
  destruct (resolveColor rgb (w1 ++ s ++ w2)); simpl in Hsame;
    [now subst | contradiction].
Qed.

End Padding.

Lemma X1_padding_ignored_witness :
  same_outcome (resolveColor grey (js "  #fff" ++ [10%N; 9%N]))
               (resolveColor grey (js "#fff")).
Proof.
  exact (proj1 (X1_padding_ignored grey (js "  ") (js "#fff") [10%N; 9%N]
                  transparent eq_refl eq_refl)).
Defined.

(** ** Hex colours: which bodies are accepted *)

Lemma resolveColor_hash (rgb : Oklch.t -> option Rgb.t) (body : str) :
  trim (ch "#" :: body) = ch "#" :: body ->
  resolveColor rgb (ch "#" :: body) = convertHexToFigma (ch "#" :: body).
Proof.
  intros Ht. rewrite resolveColor_eq. cbv zeta. rewrite Ht. reflexivity.
Qed.

Lemma convertHexToFigma_three (a b c : char) :
  is_hex a = true -> is_hex b = true -> is_hex c = true ->
  convertHexToFigma [ch "#"; a; b; c] =
    Ok (FigmaColor.mk
          (div (of_Z (16 * hex_val a + hex_val a)) n255)
          (div (of_Z (16 * hex_val b + hex_val b)) n255)
          (div (of_Z (16 * hex_val c + hex_val c)) n255) None).
Proof.
  intros Ha Hb Hc.
  pose proof (convertHexToFigma_six a a b b c c Ha Ha Hb Hb Hc Hc) as E.
  unfold convertHexToFigma in *.
  change (expand_shorthand [ch "#"; a; a; b; b; c; c])
    with [ch "#"; a; a; b; b; c; c] in E.
  unfold expand_shorthand. rewrite Ha, Hb, Hc.
  change (ch_eqb (ch "#") (ch "#") && true && true && true) with true.
  cbv iota.
  destruct (hex6_match [ch "#"; a; a; b; b; c; c]);
    [exact E | discriminate E].
Qed.

(** [convertHexToFigma] accepts exactly the bodies of three or six
    hexadecimal digits, and names the string it was given otherwise. *)
Lemma convertHexToFigma_accepts (body : str) :
  if hex_body_ok body
  then exists color, convertHexToFigma (ch "#" :: body) = Ok color
  else convertHexToFigma (ch "#" :: body) = Throw (InvalidHex (ch "#" :: body)).
Proof.
  unfold hex_body_ok.
  destruct body as [|d1 [|d2 [|d3 [|d4 [|d5 [|d6 [|d7 rest]]]]]]];
    try reflexivity.
  - (* three characters *)
    cbn [length Nat.eqb orb andb forallb].
    destruct (is_hex d1) eqn:H1;
      [|unfold convertHexToFigma, expand_shorthand;
        rewrite H1; reflexivity].
    destruct (is_hex d2) eqn:H2;
      [|unfold convertHexToFigma, expand_shorthand;
        rewrite H1, H2; reflexivity].
    destruct (is_hex d3) eqn:H3;
      [|unfold convertHexToFigma, expand_shorthand;
        rewrite H1, H2, H3; reflexivity].
    cbn [andb]. rewrite convertHexToFigma_three by assumption. now eexists.
  - (* six characters *)
    cbn [length Nat.eqb orb andb].
    destruct (forallb is_hex [d1; d2; d3; d4; d5; d6]) eqn:Hall.
    + cbn [forallb] in Hall.
      repeat (apply andb_true_iff in Hall as [? Hall]).
      rewrite convertHexToFigma_six by assumption. now eexists.
    + unfold convertHexToFigma, hex6_match.
      change (expand_shorthand [ch "#"; d1; d2; d3; d4; d5; d6])
        with [ch "#"; d1; d2; d3; d4; d5; d6].
      cbv beta iota. rewrite Hall, andb_false_r. reflexivity.
Qed.

Lemma is_hex_lower (c : char) :
  is_hex c = true -> is_hex (to_lower c) = true.
Proof.
  intros Hc. apply hex_cases in Hc. simpl in Hc.
  repeat (destruct Hc as [Hc|Hc]; [now subst c|]). contradiction.
Qed.

Lemma hex_val_lower (c : char) :
  is_hex c = true -> hex_val (to_lower c) = hex_val c.
Proof.
  intros Hc. apply hex_cases in Hc. simpl in Hc.
  repeat (destruct Hc as [Hc|Hc]; [now subst c|]). contradiction.
Qed.

Section HexBodies.

Variable rgb : Oklch.t -> option Rgb.t.

(** X2: a trimmed string that starts with [#] is a colour exactly when
    three or six hexadecimal digits follow the [#]; with any other body
    (another length, as in [#12] or in the four- and eight-digit forms,
    or a character that is no hexadecimal digit) [resolveColor] fails
    with the invalid-hex error naming that string. *)
Theorem X2_hex_body (body : str) :
  trim (ch "#" :: body) = ch "#" :: body ->
  (hex_body_ok body = true <->
     exists color, resolveColor rgb (ch "#" :: body) = Ok color)
  /\ (hex_body_ok body = false <->
        resolveColor rgb (ch "#" :: body) =
          Throw (InvalidHex (ch "#" :: body))).
Proof.
  intros Ht. rewrite resolveColor_hash by assumption.
  pose proof (convertHexToFigma_accepts body) as H.
  destruct (hex_body_ok body).
  - destruct H as [color H]. rewrite H. split; split; try discriminate.
    + intros _. now exists color.
    + reflexivity.
  - rewrite H. split; split; try reflexivity; try discriminate.
    intros [color Hc]. discriminate Hc.
Qed.

(** X3: the case of the hexadecimal digits does not matter: a hex colour
    and the same colour written in lower case resolve to the same
    value. *)
Theorem X3_hex_case (body : str) :
  hex_body_ok body = true ->
  resolveColor rgb (ch "#" :: map to_lower body) =
  resolveColor rgb (ch "#" :: body).
Proof.
  intros Hok.
  unfold hex_body_ok in Hok. apply andb_true_iff in Hok as [Hlen Hall].
  destruct body as [|d1 [|d2 [|d3 [|d4 [|d5 [|d6 [|d7 rest]]]]]]];
    try discriminate Hlen; cbn [forallb] in Hall;
    repeat (apply andb_true_iff in Hall as [? Hall]); cbn [map].
  - change [ch "#"; to_lower d1; to_lower d2; to_lower d3]
      with (ch "#" :: [to_lower d1; to_lower d2] ++ [to_lower d3]).
    change [ch "#"; d1; d2; d3] with (ch "#" :: [d1; d2] ++ [d3]).
    rewrite !resolveColor_hex
      by (apply hex_not_ws; (assumption || now apply is_hex_lower)).
    cbn [app].
    rewrite !convertHexToFigma_three
      by (assumption || now apply is_hex_lower).
    now rewrite !hex_val_lower by assumption.
  - change [ch "#"; to_lower d1; to_lower d2; to_lower d3;
            to_lower d4; to_lower d5; to_lower d6]
      with (ch "#" :: [to_lower d1; to_lower d2; to_lower d3;
                       to_lower d4; to_lower d5] ++ [to_lower d6]).
    change [ch "#"; d1; d2; d3; d4; d5; d6]
      with (ch "#" :: [d1; d2; d3; d4; d5] ++ [d6]).
    rewrite !resolveColor_hex
      by (apply hex_not_ws; (assumption || now apply is_hex_lower)).
    cbn [app].
    rewrite !convertHexToFigma_six
      by (assumption || now apply is_hex_lower).
    now rewrite !hex_val_lower by assumption.
Qed.

End HexBodies.

Lemma X2_hex_body_witness :
  (hex_body_ok (js "12") = false <->
     resolveColor grey (js "#12") = Throw (InvalidHex (js "#12"))).
Proof.
  exact (proj2 (X2_hex_body grey (js "12") eq_refl)).
Defined.

Lemma X3_hex_case_witness :
  resolveColor grey (js "#f6821f") = resolveColor grey (js "#F6821F").
Proof.
  exact (X3_hex_case grey (js "F6821F") eq_refl).
Defined.

(** ** Channels within the unit interval *)

Lemma hex_body_trimmed (body : str) :
  hex_body_ok body = true -> trim (ch "#" :: body) = ch "#" :: body.
Proof.
  unfold hex_body_ok. intros H. apply andb_true_iff in H as [Hlen Hall].
  destruct body as [|d1 [|d2 [|d3 [|d4 [|d5 [|d6 [|d7 rest]]]]]]];
    try discriminate Hlen; cbn [forallb] in Hall;
    repeat (apply andb_true_iff in Hall as [? Hall]).
  - change [ch "#"; d1; d2; d3] with (ch "#" :: [d1; d2] ++ [d3]).
    apply trim_ends; [reflexivity | now apply hex_not_ws].
  - change [ch "#"; d1; d2; d3; d4; d5; d6]
      with (ch "#" :: [d1; d2; d3; d4; d5] ++ [d6]).
    apply trim_ends; [reflexivity | now apply hex_not_ws].
Qed.

(** The clamp, case by case. *)
Lemma clamp01_cases (x : number) :
  clamp01 x =
    if is_nan x then nan
    else if ltb x one then (if ltb pos_zero x then x else pos_zero)
    else one.
Proof.
  destruct x as [[|]|[|]| |[|] m e]; try reflexivity.
  unfold clamp01, Math_max, Math_min, min_loop.
  change (is_nan one) with false. cbv iota.
  change (is_neg_zero one && is_pos_zero pos_inf) with false. cbv iota.
  change (ltb one pos_inf) with true. cbv iota.
  change (is_nan (S754_finite false m e)) with false. cbv iota.
  change (is_neg_zero (S754_finite false m e) && is_pos_zero one) with false.
  cbv iota.
  destruct (ltb (S754_finite false m e) one) eqn:E; reflexivity.
Qed.

Section UnitInterval.

Variable rgb : Oklch.t -> option Rgb.t.

(** X4: a hex colour, of three or six digits, always resolves, whatever
    the converter, to channels within [[0,1]] and to no [a] field. *)
Theorem X4_hex_in_unit (body : str) :
  hex_body_ok body = true ->
  exists color,
    resolveColor rgb (ch "#" :: body) = Ok color
    /\ FigmaColor.a color = None
    /\ in_unit (FigmaColor.r color) = true
    /\ in_unit (FigmaColor.g color) = true
    /\ in_unit (FigmaColor.b color) = true.
Proof.
  intros Hok.
  rewrite resolveColor_hash by now apply hex_body_trimmed.
  pose proof (convertHexToFigma_accepts body) as H. rewrite Hok in H.
  destruct H as [color H]. exists color. split; [exact H|].
  now apply convertHexToFigma_ok in H.
Qed.


End UnitInterval.

(** X6: the clamp [Math.max(0, Math.min(1, x))] of the source returns [x]
    itself when [0 < x < 1], [1] when [x] is not below 1 (infinity
    included), [+0] when [x] is not above 0 (with [-0] and minus
    infinity), and NaN for NaN; so its result is within [[0,1]] exactly
    when [x] is a number. *)
Theorem X6_clamp (x : number) :
  clamp01 x =
    (if is_nan x then nan
     else if ltb x one then (if ltb pos_zero x then x else pos_zero)
     else one)
  /\ in_unit (clamp01 x) = negb (is_nan x).
Proof.
  split; [apply clamp01_cases|].
  destruct (is_nan x) eqn:E.
  - destruct x; try discriminate E. reflexivity.
  - now apply clamp_unit.
Qed.

Lemma X4_hex_in_unit_witness :
  exists color,
    resolveColor grey (js "#FfF") = Ok color
    /\ FigmaColor.a color = None
    /\ in_unit (FigmaColor.r color) = true
    /\ in_unit (FigmaColor.g color) = true
    /\ in_unit (FigmaColor.b color) = true.
Proof.
  exact (X4_hex_in_unit grey (js "FfF") eq_refl).
Defined.


(** ** OKLCH expressions, part by part *)

(** Nothing, or a character outside the class [p], comes first. *)
Definition stops (p : char -> bool) (rest : str) : Prop :=
  match rest with
  | [] => True
  | c :: _ => p c = false
  end.

Lemma span_app_stop (p : char -> bool) (tok rest : str) :
  forallb p tok = true -> stops p rest -> span p (tok ++ rest) = (tok, rest).
Proof.
  intros Ht Hs. induction tok as [|c tok IH]; simpl.
  - destruct rest as [|d rest]; [reflexivity|]. simpl in *. now rewrite Hs.
  - simpl in Ht. apply andb_true_iff in Ht as [Hc Ht].
    now rewrite Hc, IH.
Qed.

Lemma dropWhile_app_stop (p : char -> bool) (w rest : str) :
  forallb p w = true -> stops p rest -> dropWhile p (w ++ rest) = rest.
Proof.
  intros Hw Hs. induction w as [|c w IH]; simpl.
  - destruct rest as [|d rest]; [reflexivity|]. simpl in *. now rewrite Hs.
  - simpl in Hw. apply andb_true_iff in Hw as [Hc Hw].
    now rewrite Hc, IH.
Qed.

Lemma stops_app (p q : char -> bool) (x rest : str) :
  (forall c, q c = true -> p c = false) ->
  forallb q x = true -> stops p rest -> stops p (x ++ rest).
Proof.
  intros Hpq Hx Hr. destruct x as [|c x]; [exact Hr|]. simpl in *.
  apply andb_true_iff in Hx as [Hc _]. now apply Hpq.
Qed.

Lemma stops_token (p : char -> bool) (x rest : str) :
  (forall c, is_numch c = true -> p c = false) ->
  token x -> stops p (x ++ rest).
Proof.
  intros Hp [Hne Hx]. destruct x as [|c x]; [contradiction|]. simpl in *.
  apply andb_true_iff in Hx as [Hc _]. now apply Hp.
Qed.

Lemma ws_not_numch (c : char) : is_ws c = true -> is_numch c = false.
Proof. intros H. char_false. Qed.

Lemma strip_prefix_self (p x : str) : strip_prefix p (p ++ x) = Some x.
Proof.
  induction p as [|a p IH]; simpl; [reflexivity|].
  unfold ch_eqb. now rewrite N.eqb_refl.
Qed.

Lemma ws_not_percent (c : char) : is_ws c = true -> ch_eqb c (ch "%") = false.
Proof. intros H. char_false. Qed.

Lemma percent_absent (L rest : str) :
  stops (fun c => ch_eqb c (ch "%")) rest ->
  match rest with
  | [] => (L, rest)
  | c :: u => if ch_eqb c (ch "%") then (L ++ [c], u) else (L, rest)
  end = (L, rest).
Proof.
  destruct rest as [|c u]; [reflexivity|]. simpl. now intros ->.
Qed.

(** The end of a match: the optional alpha clause and the closing
    parenthesis. *)
Lemma oklch_match_final (L lstr w1 C w2 H : str)
    (alpha : option (str * str * str)) (tail : str) :
  token L -> w1 <> [] -> token C -> w2 <> [] -> token H ->
  match alpha with
  | Some (w4, A, w5) => blank w4 /\ token A /\ blank w5
  | None => True
  end ->
  (let (astr, s8) :=
     match
       match alpha with
       | Some (w4, A, w5) => ch "/" :: w4 ++ A ++ w5 ++ ch ")" :: tail
       | None => ch ")" :: tail
       end
     with
     | [] => (None,
              match alpha with
              | Some (w4, A, w5) => ch "/" :: w4 ++ A ++ w5 ++ ch ")" :: tail
              | None => ch ")" :: tail
              end)
     | c :: u =>
         if ch_eqb c (ch "/")
         then let (a, v) := span is_numch (dropWhile is_ws u) in (Some a, v)
         else (None,
               match alpha with
               | Some (w4, A, w5) => ch "/" :: w4 ++ A ++ w5 ++ ch ")" :: tail
               | None => ch ")" :: tail
               end)
     end in
   match L, w1, C, w2, H, astr, dropWhile is_ws s8 with
   | _ :: _, _ :: _, _ :: _, _ :: _, _ :: _, Some [], _ => None
   | _ :: _, _ :: _, _ :: _, _ :: _, _ :: _, _, c :: _ =>
       if ch_eqb c (ch ")") then Some (mk_groups lstr C H astr) else None
   | _, _, _, _, _, _, _ => None
   end) =
  Some (mk_groups lstr C H
          match alpha with
          | Some (_, A, _) => Some A
          | None => None
          end).
Proof.
  intros [HL _] Hn1 [HC _] Hn2 [HH _] Halpha.
  destruct L as [|l0 L]; [contradiction|].
  destruct C as [|c0 C]; [contradiction|].
  destruct H as [|h0 H]; [contradiction|].
  destruct w1 as [|x1 w1]; [contradiction|].
  destruct w2 as [|x2 w2]; [contradiction|].
  destruct alpha as [[[w4 A] w5]|].
  - destruct Halpha as (Hw4 & HA & Hw5).
    change (ch_eqb (ch "/") (ch "/")) with true. cbv iota.
    rewrite dropWhile_app_stop;
      [|exact Hw4 | apply stops_token; [apply numch_not_ws | exact HA]].
    rewrite span_app_stop; [|apply HA |].
    2:{ apply stops_app with is_ws; [apply ws_not_numch | exact Hw5 |].
        reflexivity. }
    rewrite dropWhile_app_stop; [|exact Hw5 | reflexivity].
    destruct HA as [HA _]. destruct A as [|a0 A]; [contradiction|].
    reflexivity.
  - reflexivity.
Qed.

(** The groups that the pattern captures in an expression made of
    parts. *)
Lemma oklch_match_at_text (w0 L : str) (percent : bool) (w1 C w2 H w3 : str)
    (alpha : option (str * str * str)) (tail : str) :
  oklch_parts w0 L w1 C w2 H w3 alpha ->
  oklch_match_at (oklch_text w0 L percent w1 C w2 H w3 alpha tail) =
    Some (mk_groups (L ++ percent_sign percent) C H
            match alpha with
            | Some (_, A, _) => Some A
            | None => None
            end).
Proof.
  intros (Hw0 & HL & [Hw1 Hn1] & HC & [Hw2 Hn2] & HH & Hw3 & Halpha).
  unfold oklch_text, oklch_match_at. rewrite strip_prefix_self.
  set (Ta := match alpha with
             | Some (w4, A, w5) => ch "/" :: w4 ++ A ++ w5 ++ ch ")" :: tail
             | None => ch ")" :: tail
             end).
  set (T3 := w3 ++ Ta). set (TH := H ++ T3). set (T2 := w2 ++ TH).
  set (TC := C ++ T2). set (T1 := w1 ++ TC).
  assert (stops is_ws Ta /\ stops is_numch Ta) as [Sa1 Sa2]
    by (subst Ta; destruct alpha as [[[w4 A] w5]|]; now split).
  assert (stops is_numch T3) as S3
    by (apply stops_app with is_ws; [apply ws_not_numch | exact Hw3 | exact Sa2]).
  assert (stops is_ws TH) as SH
    by (apply stops_token; [apply numch_not_ws | exact HH]).
  assert (forall T, stops is_numch (w2 ++ T)) as S2.
  { intros T. destruct w2 as [|c w2]; [contradiction|]. simpl in *.
    apply andb_true_iff in Hw2 as [Hc _]. now apply ws_not_numch. }
  assert (stops is_ws TC) as SC
    by (apply stops_token; [apply numch_not_ws | exact HC]).
  assert (stops is_numch T1 /\ stops (fun c => ch_eqb c (ch "%")) T1)
    as [S1 S1'].
  { subst T1. destruct w1 as [|c w1]; [contradiction|]. simpl in *.
    apply andb_true_iff in Hw1 as [Hc _].
    split; [now apply ws_not_numch | now apply ws_not_percent]. }
  rewrite dropWhile_app_stop;
    [|exact Hw0 | apply stops_token; [apply numch_not_ws | exact HL]].
  rewrite span_app_stop;
    [|apply HL | destruct percent; [reflexivity | exact S1]].
  cbv beta iota.
  assert (L ++ percent_sign percent <> []) as HLp
    by (destruct HL as [HL _]; destruct L; [contradiction | discriminate]).
  destruct percent; cbn [percent_sign app].
  - change (ch_eqb (ch "%") (ch "%")) with true. cbv iota.
    subst T1. rewrite span_app_stop; [|exact Hw1 | exact SC].
    subst TC. rewrite span_app_stop; [|apply HC | apply S2].
    subst T2. rewrite span_app_stop; [|exact Hw2 | exact SH].
    subst TH. rewrite span_app_stop; [|apply HH | exact S3].
    subst T3. rewrite dropWhile_app_stop; [|exact Hw3 | exact Sa1].
    now apply oklch_match_final.
  - rewrite (percent_absent L T1 S1'). rewrite app_nil_r.
    subst T1. rewrite span_app_stop; [|exact Hw1 | exact SC].
    subst TC. rewrite span_app_stop; [|apply HC | apply S2].
    subst T2. rewrite span_app_stop; [|exact Hw2 | exact SH].
    subst TH. rewrite span_app_stop; [|apply HH | exact S3].
    subst T3. rewrite dropWhile_app_stop; [|exact Hw3 | exact Sa1].
    now apply oklch_match_final.
Qed.

(** [parseFloat] stops at the percent sign. *)
Lemma span_snoc_stop (p : char -> bool) (s : str) (x : char) :
  p x = false ->
  span p (s ++ [x]) = (fst (span p s), snd (span p s) ++ [x]).
Proof.
  intros Hx. induction s as [|c s IH]; simpl; [now rewrite Hx|].
  destruct (p c); [|reflexivity].
  rewrite IH. now destruct (span p s).
Qed.

Lemma span_snd_all (p q : char -> bool) (s : str) :
  forallb q s = true -> forallb q (snd (span p s)) = true.
Proof.
  induction s as [|c s IH]; simpl; [reflexivity|]. intros H.
  destruct (p c); [|exact H].
  apply andb_true_iff in H as [_ H]. specialize (IH H).
  now destruct (span p s).
Qed.

Lemma exponent_part_numch (t : str) :
  forallb is_numch t = true ->
  exponent_part t = 0%Z /\ exponent_part (t ++ [ch "%"]) = 0%Z.
Proof.
  destruct t as [|d t]; [now split|]. simpl. intros H.
  apply andb_true_iff in H as [Hd _].
  assert (ch_eqb d (ch "e") = false) as -> by char_false.
  assert (ch_eqb d (ch "E") = false) as -> by char_false.
  now split.
Qed.

Lemma parseFloat_percent (L : str) :
  forallb is_numch L = true ->
  parseFloat (L ++ [ch "%"]) = parseFloat L.
Proof.
  destruct L as [|c t]; [reflexivity|]. intros HL.
  pose proof HL as Hall. simpl in HL.
  apply andb_true_iff in HL as [Hc _].
  unfold parseFloat, trimStart. cbn [app dropWhile].
  rewrite (numch_not_ws c Hc). unfold take_sign.
  assert (ch_eqb c (ch "-") = false) as -> by char_false.
  assert (ch_eqb c (ch "+") = false) as -> by char_false.
  assert (forall r, startsWith (c :: r) (js "Infinity") = false) as HI.
  { intros r. unfold startsWith. cbn [js strip_prefix].
    assert (ch_eqb (ch "I") c = false) as -> by char_false. reflexivity. }
  rewrite !HI.
  change (c :: t ++ [ch "%"]) with ((c :: t) ++ [ch "%"]).
  rewrite span_snoc_stop by reflexivity.
  pose proof (span_snd_all is_digit is_numch (c :: t) Hall) as Ht1.
  destruct (span is_digit (c :: t)) as [ip t1]. cbn [fst snd] in *.
  destruct t1 as [|c0 u].
  - cbn [app]. change (ch_eqb (ch "%") (ch ".")) with false. cbv iota.
    reflexivity.
  - cbn [app]. destruct (ch_eqb c0 (ch ".")).
    + simpl in Ht1. apply andb_true_iff in Ht1 as [_ Hu].
      rewrite span_snoc_stop by reflexivity.
      pose proof (span_snd_all is_digit is_numch u Hu) as Ht2.
      destruct (span is_digit u) as [fp t2]. cbn [fst snd] in *.
      destruct (exponent_part_numch t2 Ht2) as [-> ->]. reflexivity.
    + destruct (exponent_part_numch (c0 :: u) Ht1) as [E1 E2].
      cbn [app] in E2. now rewrite E1, E2.
Qed.

Lemma includes_percent (L : str) (percent : bool) :
  forallb is_numch L = true ->
  includes (L ++ percent_sign percent) (ch "%") = percent.
Proof.
  intros HL. unfold includes. rewrite existsb_app.
  assert (existsb (ch_eqb (ch "%")) L = false) as ->.
  { induction L as [|d L IH]; [reflexivity|]. cbn [existsb forallb] in *.
    apply andb_true_iff in HL as [Hd HL]. rewrite (IH HL).
    assert (ch_eqb (ch "%") d = false) as -> by char_false. reflexivity. }
  now destruct percent.
Qed.

(** A string ends clean when it is empty or its last character is no
    white space. *)
Definition ends_clean (s : str) : Prop := stops is_ws (rev s).

Lemma trim_clean (s : str) : stops is_ws s -> ends_clean s -> trim s = s.
Proof.
  unfold ends_clean, trim, trimStart, trimEnd. intros H1 H2.
  assert (forall x, stops is_ws x -> dropWhile is_ws x = x) as D
    by (intros [|c x] Hx; simpl in *; [reflexivity | now rewrite Hx]).
  now rewrite (D s H1), (D (rev s) H2), rev_involutive.
Qed.

Lemma ends_clean_app (s t : str) :
  t <> [] /\ ends_clean t -> s ++ t <> [] /\ ends_clean (s ++ t).
Proof.
  unfold ends_clean. intros [Hne Ht]. split.
  - intros E. apply app_eq_nil in E as [_ E]. contradiction.
  - rewrite rev_app_distr.
    destruct (rev t) as [|d r] eqn:E; [|exact Ht].
    apply (f_equal (@rev char)) in E. rewrite rev_involutive in E.
    contradiction.
Qed.

Lemma ends_clean_cons (c : char) (t : str) :
  t <> [] /\ ends_clean t -> c :: t <> [] /\ ends_clean (c :: t).
Proof. apply (ends_clean_app [c] t). Qed.

Lemma ends_clean_paren (tail : str) :
  ends_clean tail ->
  ch ")" :: tail <> [] /\ ends_clean (ch ")" :: tail).
Proof.
  intros H. destruct tail as [|d tail]; [split; [discriminate | reflexivity]|].
  apply ends_clean_cons. split; [discriminate | exact H].
Qed.

Lemma oklch_text_trimmed (w0 L : str) (percent : bool) (w1 C w2 H w3 : str)
    (alpha : option (str * str * str)) (tail : str) :
  ends_clean tail ->
  trim (oklch_text w0 L percent w1 C w2 H w3 alpha tail) =
    oklch_text w0 L percent w1 C w2 H w3 alpha tail.
Proof.
  intros Ht. apply trim_clean; [reflexivity|].
  unfold oklch_text.
  repeat (apply ends_clean_app).
  destruct alpha as [[[w4 A] w5]|]; [|now apply ends_clean_paren].
  apply ends_clean_cons. repeat (apply ends_clean_app).
  now apply ends_clean_paren.
Qed.

Section OklchParts.

Variable rgb : Oklch.t -> option Rgb.t.

Lemma convertOklchToFigma_text (w0 L : str) (percent : bool)
    (w1 C w2 H w3 : str) (alpha : option (str * str * str)) (tail : str) :
  oklch_parts w0 L w1 C w2 H w3 alpha ->
  convertOklchToFigma rgb (oklch_text w0 L percent w1 C w2 H w3 alpha tail) =
    oklch_value rgb (oklch_text w0 L percent w1 C w2 H w3 alpha tail)
                L percent C H alpha.
Proof.
  intros Hparts.
  pose proof (oklch_match_at_text w0 L percent w1 C w2 H w3 alpha tail Hparts)
    as Hm.
  destruct Hparts as (_ & [_ HL] & _ & _ & _ & _ & _ & Halpha).
  unfold convertOklchToFigma, oklch_value.
  rewrite oklch_exec_eq, Hm. cbn [lightnessStr chromaStr hueStr alphaStr].
  rewrite includes_percent by assumption.
  assert (parseFloat (L ++ percent_sign percent) = parseFloat L) as ->.
  { destruct percent; [now apply parseFloat_percent|].
    simpl. now rewrite app_nil_r. }
  assert (match
            match alpha with
            | Some (_, A, _) => Some A
            | None => None
            end
          with
          | Some ((_ :: _) as a) => Some (parseFloat a)
          | _ => None
          end =
          match alpha with
          | Some (_, A, _) => Some (parseFloat A)
          | None => None
          end) as ->.
  { destruct alpha as [[[w4 A] w5]|]; [|reflexivity].
    destruct Halpha as (_ & [HA _] & _).
    destruct A; [contradiction | reflexivity]. }
  cbv zeta. destruct percent; reflexivity.
Qed.

Lemma resolveColor_oklch_text (w0 L : str) (percent : bool)
    (w1 C w2 H w3 : str) (alpha : option (str * str * str)) (tail : str) :
  oklch_parts w0 L w1 C w2 H w3 alpha -> ends_clean tail ->
  resolveColor rgb (oklch_text w0 L percent w1 C w2 H w3 alpha tail) =
    oklch_value rgb (oklch_text w0 L percent w1 C w2 H w3 alpha tail)
                L percent C H alpha.
Proof.
  intros Hparts Htail.
  rewrite resolveColor_oklch;
    [|now apply oklch_text_trimmed | reflexivity].
  now apply convertOklchToFigma_text.
Qed.

(** X7: an OKLCH expression [oklch( L C H )] or [oklch( L C H / A )],
    with any white space between its parts, resolves to the clamped
    channels of the converter's colour for the lightness, chroma and hue
    that [parseFloat] reads in the tokens, the lightness being divided
    by 100 when it carries a percent sign; the alpha token, when there is
    one, is the [a] field. Text after the closing parenthesis is not
    looked at. The only failure is the converter's. *)
Theorem X7_oklch_value (w0 L : str) (percent : bool)
    (w1 C w2 H w3 : str) (alpha : option (str * str * str)) (tail : str) :
  oklch_parts w0 L w1 C w2 H w3 alpha -> ends_clean tail ->
  resolveColor rgb (oklch_text w0 L percent w1 C w2 H w3 alpha tail) =
    oklch_value rgb (oklch_text w0 L percent w1 C w2 H w3 alpha tail)
                L percent C H alpha.
Proof. apply resolveColor_oklch_text. Qed.

(** X8: the white space inside an OKLCH expression and the text after its
    closing parenthesis have no effect on the colour: two expressions
    with the same tokens, percent sign and alpha token resolve to the
    same colour, or both fail in the converter. *)
Theorem X8_oklch_spacing (L : str) (percent : bool) (C H : str)
    (alpha : option str)
    (w0 w1 w2 w3 w4 w5 tail : str) (v0 v1 v2 v3 v4 v5 tail' : str) :
  oklch_parts w0 L w1 C w2 H w3 (alpha_clause alpha w4 w5) ->
  ends_clean tail ->
  oklch_parts v0 L v1 C v2 H v3 (alpha_clause alpha v4 v5) ->
  ends_clean tail' ->
  same_outcome
    (resolveColor rgb
       (oklch_text w0 L percent w1 C w2 H w3 (alpha_clause alpha w4 w5) tail))
    (resolveColor rgb
       (oklch_text v0 L percent v1 C v2 H v3 (alpha_clause alpha v4 v5) tail')).
Proof.
  intros Hw Ht Hv Ht'.
  rewrite !resolveColor_oklch_text by assumption.
  unfold oklch_value, alpha_clause.
  destruct (rgb _); [|reflexivity].
  destruct alpha; reflexivity.
Qed.

End OklchParts.

Lemma X7_oklch_value_witness :
  resolveColor grey (js "oklch( 87%  0 0/ 0.8 ) !important") =
    Ok (FigmaColor.mk
          (clamp01 (div (parseFloat (js "87")) n100))
          (clamp01 (div (parseFloat (js "87")) n100))
          (clamp01 (div (parseFloat (js "87")) n100))
          (Some (parseFloat (js "0.8")))).
Proof.
  refine (X7_oklch_value grey (js " ") (js "87") true (js "  ") (js "0")
            (js " ") (js "0") [] (Some (js " ", js "0.8", js " "))
            (js " !important") _ eq_refl).
  unfold oklch_parts, token, blank.
  repeat split; (reflexivity || discriminate).
Defined.

Lemma X8_oklch_spacing_witness :
  same_outcome
    (resolveColor grey (js "oklch(21% 0.006 285.885)"))
    (resolveColor grey (js "oklch(  21%   0.006 285.885  ); /* dark */")).
Proof.
  refine (X8_oklch_spacing grey (js "21") true (js "0.006") (js "285.885") None
            [] (js " ") (js " ") [] [] [] []
            (js "  ") (js "   ") (js " ") (js "  ") [] [] (js "; /* dark */")
            _ I _ eq_refl);
    unfold oklch_parts, token, blank;
    repeat split; (reflexivity || discriminate).
Defined.

(** ** References inside references *)

Lemma resolveColor_var_expr (rgb : Oklch.t -> option Rgb.t) (name e : str) :
  forallb name_char name = true -> trim e <> [] ->
  resolveColor rgb (var_expr name e) = resolveColor rgb (trim e).
Proof.
  intros Hname He.
  rewrite resolveColor_var by (rewrite var_expr_trim; reflexivity).
  rewrite var_expr_trim, var_expr_fallback by assumption.
  destruct (trim e) as [|c f]; [contradiction | reflexivity].
Qed.

Lemma var_chain_trim (names : list str) (e : str) :
  names <> [] ->
  trim (var_chain names e) = var_chain names e /\ var_chain names e <> [].
Proof.
  destruct names as [|name rest]; [contradiction|]. intros _.
  cbn [var_chain]. split; [apply var_expr_trim | discriminate].
Qed.

Section Chains.

Variable rgb : Oklch.t -> option Rgb.t.

(** X9: references nest to any depth: when no name holds a comma or a
    parenthesis and the innermost fallback [e] is not blank,
    [var(--n1, var(--n2, ... var(--nk, e)))] resolves to exactly what the
    trimmed [e] resolves to. *)
Theorem X9_var_chain (names : list str) (e : str) :
  Forall (fun name => forallb name_char name = true) names ->
  names <> [] ->
  trim e <> [] ->
  resolveColor rgb (var_chain names e) = resolveColor rgb (trim e).
Proof.
  intros Hnames Hne He.
  induction names as [|name rest IH]; [contradiction|].
  inversion Hnames as [|? ? Hname Hrest]; subst.
  cbn [var_chain]. destruct rest as [|name' rest'].
  - now apply resolveColor_var_expr.
  - destruct (var_chain_trim (name' :: rest') e ltac:(discriminate))
      as [Ht Hnn].
    rewrite resolveColor_var_expr; [|assumption | now rewrite Ht].
    rewrite Ht. apply IH; [assumption | discriminate].
Qed.

End Chains.

Lemma X9_var_chain_witness :
  resolveColor grey (js "var(--a, var(--b, var(--c, #0f0)))") =
    resolveColor grey (js "#0f0").
Proof.
  refine (X9_var_chain grey [js "a"; js "b"; js "c"] (js "#0f0") _ _ _).
  - repeat constructor.
  - discriminate.
  - vm_compute. discriminate.
Defined.

(** ** Commas before the separator, and where the fallback comes from *)

(** The commas of [name] all stand inside parentheses of [name], which
    are closed by the end of it. *)
Definition commas_nested (name : str) : Prop :=
  paren_depth name = 0%Z
  /\ forall i, nth_error name i = Some (ch ",") ->
       paren_depth (firstn i name) <> 0%Z.

Lemma paren_depth_app (a b : str) :
  paren_depth (a ++ b) = (paren_depth a + paren_depth b)%Z.
Proof. induction a as [|c a IH]; simpl; [reflexivity | lia]. Qed.

Lemma var_text_first_comma (name rest : str) :
  commas_nested name ->
  first_depth1_comma (js "var(" ++ name ++ ch "," :: rest) (4 + length name).
Proof.
  intros [Hbal Hnest].
  set (P := js "var(" ++ name).
  assert (length P = 4 + length name) as LP by reflexivity.
  assert (js "var(" ++ name ++ ch "," :: rest = P ++ ch "," :: rest) as ->
    by (unfold P; now rewrite <- app_assoc).
  rewrite <- LP. split; [split|].
  - rewrite nth_error_app2, Nat.sub_diag by lia. reflexivity.
  - rewrite firstn_app_length. unfold P. rewrite paren_depth_app, Hbal.
    reflexivity.
  - intros j Hj [Hc Hd].
    rewrite nth_error_app1 in Hc by assumption.
    rewrite firstn_app in Hd.
    replace (j - length P) with 0 in Hd by lia.
    rewrite firstn_O, app_nil_r in Hd.
    unfold P in Hc, Hd.
    destruct j as [|[|[|[|i]]]]; try discriminate Hc.
    change (nth_error name i = Some (ch ",")) in Hc.
    change (firstn (S (S (S (S i)))) (js "var(" ++ name))
      with (js "var(" ++ firstn i name) in Hd.
    rewrite paren_depth_app in Hd.
    apply (Hnest i Hc). change (paren_depth (js "var(")) with 1%Z in Hd. lia.
Qed.

Section NestedCommas.

Variable rgb : Oklch.t -> option Rgb.t.

(** X10: a comma inside parentheses is never taken for the separator: when
    every comma of the text before the separating comma is nested in
    parentheses that this text also closes, as in [var(--a(b,c), e)], the
    fallback is [e], trimmed, and a non-blank [e] is what gets
    resolved. *)
Theorem X10_nested_commas_skipped (name e : str) :
  commas_nested name ->
  extractCssVarFallback (js "var(" ++ name ++ ch "," :: e ++ js ")") =
    Some (trim e)
  /\ (trim e <> [] ->
      resolveColor rgb (js "var(" ++ name ++ ch "," :: e ++ js ")") =
        resolveColor rgb (trim e)).
Proof.
  intros Hname.
  remember (js "var(" ++ name ++ ch "," :: e ++ js ")") as s eqn:Es0.
  assert (trim s = s) as Ht.
  { subst s. apply trim_clean; [reflexivity|].
    repeat (apply ends_clean_app). apply ends_clean_cons.
    apply ends_clean_app. split; [discriminate | reflexivity]. }
  assert (startsWith s (js "var(") = true) as Hv by (now subst s).
  assert (s = (js "var(" ++ name ++ [ch ","]) ++ e ++ js ")") as Es
    by (subst s; rewrite <- !app_assoc; reflexivity).
  assert (extractCssVarFallback s = Some (trim e)) as Hfb.
  { rewrite extractCssVarFallback_trimmed by assumption.
    assert (endsWith s (js ")") = true) as ->.
    { rewrite Es, !app_assoc. apply endsWith_snoc. }
    pose proof (var_text_first_comma name (e ++ js ")") Hname) as Hc.
    apply find_comma_first in Hc. rewrite <- Es0 in Hc. rewrite Hc.
    f_equal. f_equal. rewrite Es.
    replace (4 + length name + 1)
      with (length (js "var(" ++ name ++ [ch ","]))
      by (rewrite !length_app; simpl; lia).
    apply (slice_middle (js "var(" ++ name ++ [ch ","]) e (js ")")). }
  split; [exact Hfb|]. intros He.
  rewrite resolveColor_var by now rewrite Ht.
  rewrite Ht, Hfb. destruct (trim e) as [|c f]; [contradiction | reflexivity].
Qed.

End NestedCommas.

Lemma X10_nested_commas_skipped_witness :
  extractCssVarFallback (js "var(--a(b,c), #fff)") = Some (js "#fff").
Proof.
  refine (proj1 (X10_nested_commas_skipped grey (js "--a(b,c)") (js " #fff") _)).
  split; [reflexivity|].
  intros i Hi.
  do 5 (destruct i as [|i]; [discriminate Hi|]).
  destruct i as [|i]; [vm_compute; discriminate|].
  do 2 (destruct i as [|i]; [discriminate Hi|]).
  destruct i; discriminate Hi.
Defined.

(** ** The fallback is part of the input *)

Lemma infix_refl (s : str) : infix s s.
Proof. exists [], []. now rewrite app_nil_r. Qed.

Lemma infix_trans (a b c : str) : infix a b -> infix b c -> infix a c.
Proof.
  intros (p1 & q1 & ->) (p2 & q2 & ->).
  exists (p2 ++ p1), (q1 ++ q2). now rewrite <- !app_assoc.
Qed.

Lemma infix_firstn (k : nat) (s : str) : infix (firstn k s) s.
Proof.
  exists [], (skipn k s). simpl. now rewrite firstn_skipn.
Qed.

Lemma infix_skipn (j : nat) (s : str) : infix (skipn j s) s.
Proof.
  exists (firstn j s), []. now rewrite app_nil_r, firstn_skipn.
Qed.

Lemma infix_trimEnd (s : str) : infix (trimEnd s) s.
Proof. destruct (trimEnd_firstn s) as [k ->]. apply infix_firstn. Qed.

Lemma infix_trim (s : str) : infix (trim s) s.
Proof.
  unfold trim, trimStart. destruct (dropWhile_skipn is_ws s) as [j ->].
  eapply infix_trans; [apply infix_trimEnd | apply infix_skipn].
Qed.

Lemma infix_slice (i j : nat) (s : str) : infix (slice i j s) s.
Proof.
  unfold slice. eapply infix_trans; [apply infix_firstn | apply infix_skipn].
Qed.

(** X11: the fallback that [extractCssVarFallback] returns is a run of
    consecutive characters of its argument, with no white space at either
    end: nothing is added or reordered. *)
Theorem X11_fallback_is_infix (value fallback : str) :
  extractCssVarFallback value = Some fallback ->
  infix fallback value /\ trim fallback = fallback.
Proof.
  unfold extractCssVarFallback.
  destruct (negb (startsWith (trim value) (js "var("))); [discriminate|].
  destruct (negb (endsWith (trimEnd (trim value)) (js ")"))); [discriminate|].
  destruct (find_comma 0 0 (trimEnd (trim value))) as [k|]; [|discriminate].
  intros H. inversion H; subst fallback. clear H. split.
  - eapply infix_trans; [apply infix_trim|].
    eapply infix_trans; [apply infix_slice|].
    eapply infix_trans; [apply infix_trimEnd | apply infix_trim].
  - apply trim_idem.
Qed.

Lemma X11_fallback_is_infix_witness :
  infix (js "oklch(87% 0 0 / 0.8)") (js " var(--x,  oklch(87% 0 0 / 0.8) ) ")
  /\ trim (js "oklch(87% 0 0 / 0.8)") = js "oklch(87% 0 0 / 0.8)".
Proof.
  exact (X11_fallback_is_infix (js " var(--x,  oklch(87% 0 0 / 0.8) ) ")
           (js "oklch(87% 0 0 / 0.8)") eq_refl).
Defined.

(** ** What a failure tells *)

(** What each error says about the string it names. *)
Definition diagnosis (rgb : Oklch.t -> option Rgb.t) (value : str)
    (e : error) : Prop :=
  match e with
  | InvalidExpression v =>
      startsWith (trim v) (js "var(") = true
      /\ (extractCssVarFallback (trim v) = None
          \/ extractCssVarFallback (trim v) = Some [])
  | InvalidOklch s =>
      final_expression value s /\ startsWith s (js "oklch(") = true
      /\ oklch_exec s = None
  | ConversionFailed s =>
      final_expression value s /\ startsWith s (js "oklch(") = true
      /\ exists o, rgb o = None
  | InvalidHex h =>
      final_expression value h /\ startsWith h (js "#") = true
      /\ convertHexToFigma h = Throw (InvalidHex h)
  | UnsupportedFormat v =>
      final_expression value (trim v)
      /\ trim v <> js "transparent"
      /\ startsWith (trim v) (js "oklch(") = false
      /\ startsWith (trim v) (js "#") = false
  end.

Lemma diagnosis_var (rgb : Oklch.t -> option Rgb.t) (value : str)
    (c : char) (f : str) (e : error) :
  startsWith (trim value) (js "var(") = true ->
  extractCssVarFallback (trim value) = Some (c :: f) ->
  diagnosis rgb (c :: f) e -> diagnosis rgb value e.
Proof.
  intros Hv E. destruct e; simpl; try exact (fun H => H);
    intros (Hf & H); (split; [now apply final_var with c f | exact H]).
Qed.

Lemma convertHexToFigma_throws (h : str) (e : error) :
  convertHexToFigma h = Throw e -> e = InvalidHex h.
Proof.
  unfold convertHexToFigma.
  destruct (hex6_match (expand_shorthand h)); [discriminate|].
  intros H. now inversion H.
Qed.

Section Failures.

Variable rgb : Oklch.t -> option Rgb.t.

Lemma resolveColor_diagnosis_aux (n : nat) :
  forall value e,
    length value < n ->
    resolveColor rgb value = Throw e -> diagnosis rgb value e.
Proof.
  induction n as [|n IH]; intros value e Hlen; [lia|].
  destruct (startsWith (trim value) (js "var(")) eqn:Hv.
  - rewrite resolveColor_var by assumption.
    destruct (extractCssVarFallback (trim value)) as [[|c f]|] eqn:E.
    + intros H. inversion H. simpl. now split; [|right].
    + intros H. apply (diagnosis_var rgb value c f e Hv E).
      apply IH; [|exact H].
      apply extractCssVarFallback_shorter in E.
      pose proof (trim_length value). lia.
    + intros H. inversion H. simpl. now split; [|left].
  - rewrite resolveColor_eq. cbv zeta. rewrite Hv.
    pose proof (final_leaf value Hv) as Hf.
    destruct (str_eqb (trim value) (js "transparent")) eqn:Et;
      [discriminate|].
    destruct (startsWith (trim value) (js "oklch(")) eqn:Eo.
    + unfold convertOklchToFigma.
      destruct (oklch_exec (trim value)) as [m|] eqn:Em.
      * destruct (rgb _) as [c|] eqn:Ec; [discriminate|].
        intros H. inversion H. subst e. cbn [diagnosis].
        split; [exact Hf|]. split; [exact Eo|]. eexists. exact Ec.
      * intros H. inversion H. subst e. cbn [diagnosis]. now repeat split.
    + destruct (startsWith (trim value) (js "#")) eqn:Eh.
      * intros H. pose proof (convertHexToFigma_throws _ _ H) as ->.
        simpl. now repeat split.
      * intros H. inversion H. simpl. repeat split; try assumption.
        intros Ht. rewrite Ht in Et. discriminate Et.
Qed.

Lemma resolveColor_diagnosis (value : str) (e : error) :
  resolveColor rgb value = Throw e -> diagnosis rgb value e.
Proof. apply (resolveColor_diagnosis_aux (S (length value))). lia. Qed.

Lemma final_expression_trimmed (value leaf : str) :
  final_expression value leaf -> trim leaf = leaf.
Proof. induction 1; [apply trim_idem | assumption]. Qed.

Lemma final_expression_not_var (value leaf : str) :
  final_expression value leaf -> startsWith leaf (js "var(") = false.
Proof. induction 1; assumption. Qed.

(** X12: a parsing error names the final expression, not the input: when
    [resolveColor] fails with the invalid-hex error, the string named is
    what is left of the input after trimming and after every fallback; it
    is a [#] followed by something other than three or six hexadecimal
    digits. Likewise the invalid-OKLCH error names the final expression,
    which starts with [oklch(], is matched nowhere by the pattern and so
    is not of the shape [oklch( L C H [ / A ] )]. *)
Theorem X12_parse_errors_name_final (value s : str) :
  (resolveColor rgb value = Throw (InvalidHex s) ->
     final_expression value s /\ trim s = s
     /\ exists body, s = ch "#" :: body /\ hex_body_ok body = false)
  /\ (resolveColor rgb value = Throw (InvalidOklch s) ->
        final_expression value s /\ trim s = s
        /\ startsWith s (js "oklch(") = true
        /\ oklch_exec s = None /\ oklch_shape s = false).
Proof.
  split; intros H; apply resolveColor_diagnosis in H; simpl in H.
  - destruct H as (Hf & Hh & Hc).
    split; [exact Hf|]. split; [now apply final_expression_trimmed with value|].
    apply startsWith_app in Hh as [body ->]. exists body.
    split; [reflexivity|].
    pose proof (convertHexToFigma_accepts body) as Ha.
    destruct (hex_body_ok body); [|reflexivity].
    destruct Ha as [color Ha]. simpl app in Hc. rewrite Hc in Ha.
    discriminate Ha.
  - destruct H as (Hf & Ho & He).
    repeat split; try assumption.
    + now apply final_expression_trimmed with value.
    + destruct (oklch_shape s) eqn:Es; [|reflexivity].
      now apply oklch_shape_exec in Es.
Qed.

(** X13: the unsupported-format error is for what is none of the four
    forms. An input that is no [var(...)] reference fails with it, naming
    the input as given, exactly when its trimmed text is not
    [transparent] and starts with neither [oklch(] nor [#]; the empty
    string and [rgb(0,0,0)] are such inputs. Whenever the error is raised,
    the string named is trimmed to the final expression, which is none of
    the forms. *)
Theorem X13_unsupported_format (value v : str) :
  (startsWith (trim value) (js "var(") = false ->
     (resolveColor rgb value = Throw (UnsupportedFormat value) <->
        trim value <> js "transparent"
        /\ startsWith (trim value) (js "oklch(") = false
        /\ startsWith (trim value) (js "#") = false))
  /\ (resolveColor rgb value = Throw (UnsupportedFormat v) ->
        final_expression value (trim v)
        /\ trim v <> js "transparent"
        /\ startsWith (trim v) (js "var(") = false
        /\ startsWith (trim v) (js "oklch(") = false
        /\ startsWith (trim v) (js "#") = false)
  /\ resolveColor rgb [] = Throw (UnsupportedFormat [])
  /\ resolveColor rgb (js "rgb(0,0,0)") =
       Throw (UnsupportedFormat (js "rgb(0,0,0)")).
Proof.
  split; [|split; [|split; reflexivity]].
  - intros Hv. split.
    + intros H. apply resolveColor_diagnosis in H. simpl in H. tauto.
    + intros (Ht & Ho & Hh). rewrite resolveColor_eq. cbv zeta.
      rewrite Hv, Ho, Hh.
      destruct (str_eqb (trim value) (js "transparent")) eqn:E;
        [|reflexivity].
      apply str_eqb_eq in E. contradiction.
  - intros H. apply resolveColor_diagnosis in H. simpl in H.
    destruct H as (Hf & Ht & Ho & Hh). repeat split; try assumption.
    now apply final_expression_not_var with value.
Qed.

(** X14: the missing-fallback error always names a [var(...)] reference
    whose fallback is absent or blank: the named string, trimmed, starts
    with [var(], and [extractCssVarFallback] finds nothing in it or an
    empty text. *)
Theorem X14_missing_fallback (value v : str) :
  resolveColor rgb value = Throw (InvalidExpression v) ->
  startsWith (trim v) (js "var(") = true
  /\ (extractCssVarFallback (trim v) = None
      \/ extractCssVarFallback (trim v) = Some []).
Proof.
  intros H. now apply resolveColor_diagnosis in H.
Qed.

(** X15: the conversion error is raised only when the converter returns
    nothing: with a converter that returns a colour for every OKLCH
    triple, as culori's does, [resolveColor] never fails with it. *)
Theorem X15_conversion_never_fails (value s : str) :
  (forall o, rgb o <> None) ->
  resolveColor rgb value <> Throw (ConversionFailed s).
Proof.
  intros Htotal H. apply resolveColor_diagnosis in H. simpl in H.
  destruct H as (_ & _ & o & Ho). now apply (Htotal o).
Qed.

Lemma final_same_outcome (value leaf : str) :
  final_expression value leaf ->
  same_outcome (resolveColor rgb value) (resolveColor rgb leaf).
Proof.
  induction 1 as [value Hv|value c f leaf Hv E Hf IH].
  - apply same_outcome_sym, resolveColor_trim.
  - rewrite resolveColor_var by assumption. now rewrite E.
Qed.

(** X16: the result depends on the final expression only: two inputs
    that come down to the same expression, after trimming and after
    their fallbacks, resolve to the same colour or fail in the same
    way, whatever the names and the nesting around it. *)
Theorem X16_final_expression_decides (v1 v2 leaf : str) :
  final_expression v1 leaf -> final_expression v2 leaf ->
  same_outcome (resolveColor rgb v1) (resolveColor rgb v2).
Proof.
  intros H1 H2.
  apply same_outcome_trans with (resolveColor rgb leaf).
  - now apply final_same_outcome.
  - now apply same_outcome_sym, final_same_outcome.
Qed.

End Failures.

Lemma X12_parse_errors_name_final_witness :
  final_expression (js " var(--x, #12 ) ") (js "#12")
  /\ trim (js "#12") = js "#12"
  /\ exists body, js "#12" = ch "#" :: body /\ hex_body_ok body = false.
Proof.
  exact (proj1 (X12_parse_errors_name_final grey (js " var(--x, #12 ) ")
                  (js "#12")) eq_refl).
Defined.

Lemma X13_unsupported_format_witness :
  (resolveColor grey (js " red ") = Throw (UnsupportedFormat (js " red ")) <->
     trim (js " red ") <> js "transparent"
     /\ startsWith (trim (js " red ")) (js "oklch(") = false
     /\ startsWith (trim (js " red ")) (js "#") = false).
Proof.
  exact (proj1 (X13_unsupported_format grey (js " red ") []) eq_refl).
Defined.

Lemma X14_missing_fallback_witness :
  startsWith (trim (js "var(--y,  )")) (js "var(") = true
  /\ (extractCssVarFallback (trim (js "var(--y,  )")) = None
      \/ extractCssVarFallback (trim (js "var(--y,  )")) = Some []).
Proof.
  exact (X14_missing_fallback grey (js "var(--x, var(--y,  ))")
           (js "var(--y,  )") eq_refl).
Defined.

Lemma X15_conversion_never_fails_witness :
  resolveColor grey (js "oklch(1 2 3)") <>
    Throw (ConversionFailed (js "oklch(1 2 3)")).
Proof.
  refine (X15_conversion_never_fails grey (js "oklch(1 2 3)")
            (js "oklch(1 2 3)") _).
  intros o. discriminate.
Defined.

Lemma X16_final_expression_decides_witness :
  same_outcome (resolveColor grey (js "var(--a, var(--b, #abc))"))
               (resolveColor grey (js "  #abc ")).
Proof.
  refine (X16_final_expression_decides grey (js "var(--a, var(--b, #abc))")
            (js "  #abc ") (js "#abc") _ _).
  - eapply final_var; [reflexivity | reflexivity |].
    eapply final_var; [reflexivity | reflexivity |].
    exact (final_leaf (js "#abc") eq_refl).
  - exact (final_leaf (js "  #abc ") eq_refl).
Defined.

(** ** The literal [transparent] *)

Section Transparent.

Variable rgb : Oklch.t -> option Rgb.t.

(** X17: every input that comes down to the literal [transparent], with
    white space around it or as the fallback of references nested to any
    depth, resolves to black with alpha 0, whatever the converter. *)
Theorem X17_transparent (value : str) :
  final_expression value (js "transparent") ->
  resolveColor rgb value =
    Ok (FigmaColor.mk pos_zero pos_zero pos_zero (Some pos_zero)).
Proof.
  intros Hf.
  assert (same_outcome (resolveColor rgb value)
                       (resolveColor rgb (js "transparent"))) as H.
  { clear -Hf. induction Hf as [value Hv|value c f leaf Hv E Hf IH].
    - apply same_outcome_sym, resolveColor_trim.
    - rewrite resolveColor_var by assumption. now rewrite E. }
  change (resolveColor rgb (js "transparent")) with (Ok transparent) in H.
  destruct (resolveColor rgb value); simpl in H; [now subst | contradiction].
Qed.

End Transparent.

Lemma X17_transparent_witness :
  resolveColor grey (js " var(--overlay, var(--none,  transparent )) ") =
    Ok (FigmaColor.mk pos_zero pos_zero pos_zero (Some pos_zero)).
Proof.
  refine (X17_transparent grey
            (js " var(--overlay, var(--none,  transparent )) ") _).
  eapply final_var; [reflexivity | reflexivity |].
  eapply final_var; [reflexivity | reflexivity |].
  exact (final_leaf (js "transparent") eq_refl).
Defined.
